(** * deduce.py: a budget-bounded prover for intuitionistic propositional logic

    A shallow embedding of [src/deduce.py] and the properties of its search
    procedure [Prover.can_prove].

    Modelling conventions.
    - A [Tree] of the source is a tag string with a list of kids.  The parser
      and the prover only ever build atoms (tag [":" ++ c], no kids) and the
      three binary nodes ["&"], ["+"], ["->"]; the embedding is the inductive
      type of exactly these trees, with [tag] and [kids] as projections.
    - Python exceptions are values of [exn]; fallible code lives in the error
      monad [result].
    - The heuristic weights are Python floats.  They are embedded as exact
      rationals [Q]: the weights 1.0, 0.5, 0.25, 0.75 are dyadic, and the
      quotient by the key count is rounded monotonically, so binary64 and
      [Q] order the scores alike as long as no product underflows and no
      two scores are closer than one unit in the last place.  [Binary64]
      repeats the heuristic on the kernel's binary64 floats, and the
      examples are evaluated on both.
    - [energy] is a Python int, embedded as [Z].  [int(energy*2.0/3)] is
      the truncated quotient; on binary64 it is exact below [2^52].
    - The trace written by [display] is output only and never read back; it
      is not part of the embedding.  [display_judgement] renders a tree with
      a method [Tree.display] that the file does not define (it defines
      [as_str]); the embedding takes it for a rendering function that
      returns a string. *)

From Stdlib Require Import QArith ZArith Lia Lqa Ascii String Floats Uint63.
From stdpp Require Import gmap strings list sorting.

Open Scope string_scope.
Open Scope list_scope.

(** ** 0. Exceptions *)

Inductive exn : Set :=
  | ZeroDivisionError
  | IndexError
  | ValueError
  | AssertionError
  | AttributeError
  | RecursionError.

Inductive result (A : Type) : Type :=
  | Ret (a : A)
  | Raise (e : exn).
Arguments Ret {A} a.
Arguments Raise {A} e.

#[global] Instance result_ret : MRet result := @Ret.
#[global] Instance result_bind : MBind result :=
  fun A B f m => match m with Ret a => f a | Raise e => Raise e end.

(** ** 1. Syntax *)

Inductive Tree : Set :=
  | Atom (c : string)
  | And (fst snd : Tree)
  | Or (lft rht : Tree)
  | Imp (hypo conc : Tree).

Definition tag (t : Tree) : string :=
  match t with
  | Atom c => String ":" c
  | And _ _ => "&"
  | Or _ _ => "+"
  | Imp _ _ => "->"
  end.

Definition kids (t : Tree) : list Tree :=
  match t with
  | Atom _ => []
  | And a b | Or a b | Imp a b => [a; b]
  end.

Definition nb_kids (t : Tree) : nat := length (kids t).

(** [Tree.matches]: tags first, then the number of kids, then the kids
    pairwise, as [zip] pairs them.  Two trees of the embedding that pass the
    first test are built by the same constructor, so the last branch is never
    reached. *)
Fixpoint matches (self pattern : Tree) : bool :=
  if decide (tag self ≠ tag pattern) then false else
  if decide (nb_kids self ≠ nb_kids pattern) then false else
  match self, pattern with
  | Atom _, Atom _ => true
  | And a b, And a' b' | Or a b, Or a' b' | Imp a b, Imp a' b' =>
      if negb (matches a a') then false
      else if negb (matches b b') then false
      else true
  | _, _ => false
  end.

(** [is_atom]: [tree.tag[:1] == ':'] *)
Definition is_atom (tree : Tree) : bool :=
  bool_decide (String.substring 0 1 (tag tree) = ":").

(** ** 1.1 Parse strings into trees

    [LogicParser] keeps the token string and a cursor [idx]; the embedding
    passes the cursor explicitly and returns it with each tree.  The four
    mutually recursive methods descend on [fuel], which bounds the depth of
    the Python call stack. *)

Module LogicParser.

Definition at_end (toks : string) (idx : nat) : bool :=
  negb (bool_decide (idx < String.length toks)%nat).

Definition peek (toks : string) (idx : nat) : result ascii :=
  if at_end toks idx then Raise AssertionError
  else match String.get idx toks with
       | Some c => Ret c
       | None => Raise IndexError
       end.

(** [match]: consume the characters of [cc], asserting each one. *)
Fixpoint match_ (toks cc : string) (idx : nat) : result nat :=
  match cc with
  | EmptyString => Ret idx
  | String c cc' =>
      t ← peek toks idx;
      if decide (t = c) then match_ toks cc' (S idx) else Raise AssertionError
  end.

(** [str.isalpha] on the ASCII letters. *)
Definition isalpha (c : ascii) : bool :=
  let n := nat_of_ascii c in
  bool_decide (65 ≤ n ≤ 90 ∨ 97 ≤ n ≤ 122)%nat.

Definition atom (toks : string) (idx : nat) : result (Tree * nat) :=
  c ← peek toks idx;
  if negb (isalpha c) then Raise AssertionError else
  idx ← match_ toks (String c EmptyString) idx;
  Ret (Atom (String c EmptyString), idx).

(** [not s.at_end() and s.peek() == c] *)
Definition next_is (toks : string) (idx : nat) (c : ascii) : bool :=
  negb (at_end toks idx) && bool_decide (String.get idx toks = Some c).

(** [fact] falls off its end on any other character and hands Python's
    [None] to its caller.  No caller can use it as a tree (its first use
    raises [AttributeError]); the embedding raises it on the spot. *)
Fixpoint expr (fuel : nat) (toks : string) (idx : nat) : result (Tree * nat) :=
  match fuel with
  | O => Raise RecursionError
  | S fuel =>
      head ← disj fuel toks idx;
      if next_is toks head.2 "-" then
        idx ← match_ toks "->" head.2;
        tail ← expr fuel toks idx;
        Ret (Imp head.1 tail.1, tail.2)
      else Ret head
  end
with disj (fuel : nat) (toks : string) (idx : nat) : result (Tree * nat) :=
  match fuel with
  | O => Raise RecursionError
  | S fuel =>
      head ← conj fuel toks idx;
      if next_is toks head.2 "+" then
        idx ← match_ toks "+" head.2;
        tail ← disj fuel toks idx;
        Ret (Or head.1 tail.1, tail.2)
      else Ret head
  end
with conj (fuel : nat) (toks : string) (idx : nat) : result (Tree * nat) :=
  match fuel with
  | O => Raise RecursionError
  | S fuel =>
      head ← fact fuel toks idx;
      if next_is toks head.2 "&" then
        idx ← match_ toks "&" head.2;
        tail ← conj fuel toks idx;
        Ret (And head.1 tail.1, tail.2)
      else Ret head
  end
with fact (fuel : nat) (toks : string) (idx : nat) : result (Tree * nat) :=
  match fuel with
  | O => Raise RecursionError
  | S fuel =>
      c ← peek toks idx;
      if isalpha c then atom toks idx
      else if decide (c = "("%char) then
        idx ← match_ toks "(" idx;
        r ← expr fuel toks idx;
        idx ← match_ toks ")" r.2;
        Ret (r.1, idx)
      else Raise AttributeError
  end.

End LogicParser.

Definition tree_from_str (ss : string) : result Tree :=
  r ← LogicParser.expr (4 * S (String.length ss)) ss 0;
  Ret r.1.

(** ** 2.0 Heuristics *)

(** The weight pair [wa, wb] of [atom_counts]. *)
Definition weights (tree : Tree) : Q * Q :=
  if decide (tag tree = "&") then (1, 1)%Q
  else if decide (tag tree = "+") then (1 # 2, 1 # 2)%Q
  else (1 # 4, 3 # 4)%Q.

(** One of the two loops of [atom_counts]:
    [for k,v in aa.items(): if k not in cc: cc[k]=0; cc[k] += w*v]. *)
Definition accumulate (w : Q) (aa cc : gmap string Q) : gmap string Q :=
  map_fold (fun k v cc => <[k := (default 0 (cc !! k) + w * v)%Q]> cc) cc aa.

Fixpoint atom_counts (tree : Tree) : gmap string Q :=
  match tree with
  | Atom _ => {[ tag tree := 1%Q ]}
  | And a b | Or a b | Imp a b =>
      let aa := atom_counts a in
      let bb := atom_counts b in
      let '(wa, wb) := weights tree in
      accumulate wb bb (accumulate wa aa ∅)
  end.

(** [count_overlap]: the sum of the products over the union of the keys,
    divided by the number of keys.  Python raises on a zero divisor. *)
Definition count_overlap (aa bb : gmap string Q) : result Q :=
  let keys : gset string := dom aa ∪ dom bb in
  let total :=
    set_fold (fun k acc => (acc + default 0 (aa !! k) * default 0 (bb !! k))%Q)
             0%Q keys in
  if decide (size keys = 0%nat) then Raise ZeroDivisionError
  else Ret (total / inject_Z (Z.of_nat (size keys)))%Q.

(** ** 2.2 Prover proper *)

(** [l[i]] *)
Definition getitem {A : Type} (l : list A) (i : nat) : result A :=
  match l !! i with
  | Some x => Ret x
  | None => Raise IndexError
  end.

(** [a, b = l] *)
Definition unpack2 {A : Type} (l : list A) : result (A * A) :=
  match l with
  | [a; b] => Ret (a, b)
  | _ => Raise ValueError
  end.

(** [for x in l: if f(x): return True], falling through otherwise. *)
Fixpoint first_success {A : Type} (f : A → result bool) (l : list A) : result bool :=
  match l with
  | [] => Ret false
  | x :: l' => ok ← f x; if ok : bool then Ret true else first_success f l'
  end.

(** [for x in l: if not f(x): break] with the loop's [else] branch taken
    when it did not break. *)
Fixpoint all_success {A : Type} (f : A → result bool) (l : list A) : result bool :=
  match l with
  | [] => Ret true
  | x :: l' => ok ← f x; if negb ok then Ret false else all_success f l'
  end.

(** Python's order on the pairs [(score, index)]. *)
Definition tuple_lt (x y : Q * nat) : bool :=
  match (x.1 ?= y.1)%Q with
  | Lt => true
  | Gt => false
  | Eq => bool_decide (x.2 < y.2)%nat
  end.

Definition tuple_ge (x y : Q * nat) : Prop := tuple_lt x y = false.

#[global] Instance tuple_ge_dec x y : Decision (tuple_ge x y).
Proof. unfold tuple_ge. apply _. Defined.

(** [sorted(l, reverse=True)]: no element is followed by a larger one. *)
Definition sorted_reverse (l : list (Q * nat)) : list (Q * nat) :=
  merge_sort tuple_ge l.

(** Step 0 of [can_prove]: break open the conjunctions among the givens. *)
Definition break_open (givens : list Tree) : list Tree :=
  let cs := filter (fun g => tag g = "&") givens in
  let givens := filter (fun g => tag g ≠ "&") givens in
  givens ++ flat_map kids cs.

(** Step 1 of [can_prove]: sort the givens by their overlap with the goal. *)
Definition sort_givens (tree : Tree) (givens : list Tree) : result (list Tree) :=
  let act := atom_counts tree in
  scored ← mapM (fun ig : nat * Tree =>
                   c ← count_overlap act (atom_counts ig.2); mret (c, ig.1))
                (imap pair givens);
  let idxs := sorted_reverse scored in
  mapM (fun ci : Q * nat => getitem givens ci.2) idxs.

(** The energy of one case of a split. *)
Definition case_energy (tree b : Tree) (energy : Z) : result Z :=
  let act := atom_counts tree in
  let acb := atom_counts b in
  c ← count_overlap act acb;
  mret (if Qlt_le_dec (3 # 4) c then Z.quot (energy * 2) 3
        else Z.quot (energy * 1) 3).

Section Rules.
(** The recursive call [s.can_prove(tree, givens, newtab, energy)]. *)
Variable rec : Tree → list Tree → Z → result bool.

Definition easies (tree : Tree) (givens : list Tree) (en : Z) : result bool :=
  match tree with
  | Atom _ =>
      first_success
        (fun g => Ret (is_atom g && bool_decide (tag g = tag tree))) givens
  | Imp hypo conc =>
      ok ← rec conc (hypo :: givens) en;
      if ok : bool then Ret true else Ret false
  | Or lft rht =>
      ok ← rec lft givens en;
      if ok : bool then Ret true else
      ok ← rec rht givens en;
      if ok : bool then Ret true else Ret false
  | And fst snd =>
      ok ← rec fst givens en;
      if negb ok then Ret false else
      ok ← rec snd (givens ++ [fst]) en;
      if negb ok then Ret false else Ret true
  end.

(** The candidates of the slice rule. *)
Definition slice_candidates (tree : Tree) (givens : list Tree) : list Tree :=
  filter (fun g => bool_decide (tag g = "->") &&
                   match kids g !! 1%nat with
                   | Some conc => matches conc tree
                   | None => false
                   end) givens.

Definition slice (tree : Tree) (givens : list Tree) (energy : Z) : result bool :=
  let gs := slice_candidates tree givens in
  let en := (energy - (if decide (length gs = 1%nat) then 1 else 2))%Z in
  first_success
    (fun g => hc ← unpack2 (kids g); rec hc.1 givens en) gs.

(** The candidates of the split rule, with their positions. *)
Definition split_candidates (givens : list Tree) : list (nat * Tree) :=
  filter (fun ig : nat * Tree => tag ig.2 = "+") (imap pair givens).

Definition split (tree : Tree) (givens : list Tree) (energy : Z) : result bool :=
  let igs := split_candidates givens in
  first_success
    (fun ig : nat * Tree =>
       lr ← unpack2 (kids ig.2);
       let gg := take ig.1 givens ++ drop (S ig.1) givens in
       all_success
         (fun b => en ← case_energy tree b energy; rec tree (b :: gg) en)
         [lr.1; lr.2])
    igs.

Definition can_prove_body (tree : Tree) (givens : list Tree) (energy : Z)
  : result bool :=
  if decide (energy ≤ 0)%Z then Ret false else
  let givens := break_open givens in
  givens ← sort_givens tree givens;
  let en := (energy - 1)%Z in
  ok ← easies tree givens en;
  if ok : bool then Ret true else
  ok ← slice tree givens energy;
  if ok : bool then Ret true else
  ok ← split tree givens energy;
  if ok : bool then Ret true else
  Ret false.
End Rules.

(** [Prover.can_prove], by recursion on the measure [Z.to_nat energy]: a call
    with [energy <= 0] answers at once, and a call with positive energy only
    calls itself with less (theorem [can_prove_terminates]). *)
Fixpoint can_prove_upto (n : nat) : Tree → list Tree → Z → result bool :=
  match n with
  | O => fun _ _ _ => Ret false
  | S k => can_prove_body (can_prove_upto k)
  end.

Definition can_prove (tree : Tree) (givens : list Tree) (energy : Z) : result bool :=
  can_prove_upto (Z.to_nat energy) tree givens energy.

(** ** 3. Main loop *)

(** The examples of the main loop. *)
Definition example_problems : list (string * list string) :=
  [ ("(a+b)->(b&c)", ["(d&c)+(e&c)"; "a->b"]);
    ("a->F", ["((a->F)->F)->F"]);
    ("a", ["(a->F)->F"]) ].

(** One turn of the main loop: parse, then [P.can_prove(cc, hhs)] with the
    default energy. *)
Definition run_example (problem : string * list string) : result bool :=
  cc ← tree_from_str problem.1;
  hhs ← mapM tree_from_str problem.2;
  can_prove cc hhs 10.

(** ** The search over any heuristic

    [can_prove] reads the heuristic at two places only: step 1, which
    reorders the givens, and the budget of a case of a split.  The search is
    spelled out once more with these two as parameters, so that what depends
    on neither can be proved once, for the exact scores and for the binary64
    scores below. *)

Section Search.
Variable sort : Tree → list Tree → result (list Tree).
Variable budget : Tree → Tree → Z → result Z.
Variable rec : Tree → list Tree → Z → result bool.

Definition split_with (tree : Tree) (givens : list Tree) (energy : Z) : result bool :=
  let igs := split_candidates givens in
  first_success
    (fun ig : nat * Tree =>
       lr ← unpack2 (kids ig.2);
       let gg := take ig.1 givens ++ drop (S ig.1) givens in
       all_success
         (fun b => en ← budget tree b energy; rec tree (b :: gg) en)
         [lr.1; lr.2])
    igs.

Definition can_prove_body_with (tree : Tree) (givens : list Tree) (energy : Z)
  : result bool :=
  if decide (energy ≤ 0)%Z then Ret false else
  let givens := break_open givens in
  givens ← sort tree givens;
  let en := (energy - 1)%Z in
  ok ← easies rec tree givens en;
  if ok : bool then Ret true else
  ok ← slice rec tree givens energy;
  if ok : bool then Ret true else
  ok ← split_with tree givens energy;
  if ok : bool then Ret true else
  Ret false.
End Search.

Fixpoint can_prove_upto_with (sort : Tree → list Tree → result (list Tree))
    (budget : Tree → Tree → Z → result Z) (n : nat)
  : Tree → list Tree → Z → result bool :=
  match n with
  | O => fun _ _ _ => Ret false
  | S k => can_prove_body_with sort budget (can_prove_upto_with sort budget k)
  end.

Definition can_prove_with (sort : Tree → list Tree → result (list Tree))
    (budget : Tree → Tree → Z → result Z)
    (tree : Tree) (givens : list Tree) (energy : Z) : result bool :=
  can_prove_upto_with sort budget (Z.to_nat energy) tree givens energy.

(** What the search needs of a heuristic: step 1 returns a rearrangement
    of the givens, and the budget of a case is one or two thirds of the
    energy, whichever the scores say, truncated. *)
Definition rearranges (sort : Tree → list Tree → result (list Tree)) : Prop :=
  ∀ tree givens, ∃ gs, sort tree givens = Ret gs ∧ gs ≡ₚ givens.

Definition thirds (budget : Tree → Tree → Z → result Z) : Prop :=
  ∀ tree b, ∃ k : Z, (k = 1 ∨ k = 2)%Z ∧
                     ∀ energy, budget tree b energy = Ret (Z.quot (energy * k) 3).

(** ** The prover on binary64 scores

    The heuristic once more, on the primitive binary64 floats of the kernel
    (Python's [float]) in place of exact rationals, to check the scores of
    the examples bit for bit.  [easies] and [slice] hold no arithmetic and
    are shared; the rest repeats the definitions above with [float] for
    [Q]. *)

Module Binary64.

Definition weights (tree : Tree) : float * float :=
  if decide (tag tree = "&") then (1, 1)%float
  else if decide (tag tree = "+") then (0.5, 0.5)%float
  else (0.25, 0.75)%float.

Definition accumulate (w : float) (aa cc : gmap string float)
  : gmap string float :=
  map_fold (fun k v cc => <[k := (default 0 (cc !! k) + w * v)%float]> cc) cc aa.

Fixpoint atom_counts (tree : Tree) : gmap string float :=
  match tree with
  | Atom _ => {[ tag tree := 1%float ]}
  | And a b | Or a b | Imp a b =>
      let aa := atom_counts a in
      let bb := atom_counts b in
      let '(wa, wb) := weights tree in
      accumulate wb bb (accumulate wa aa ∅)
  end.

Definition count_overlap (aa bb : gmap string float) : result float :=
  let keys : gset string := dom aa ∪ dom bb in
  let total :=
    set_fold (fun k acc =>
                (acc + default 0 (aa !! k) * default 0 (bb !! k))%float)
             0%float keys in
  if decide (size keys = 0%nat) then Raise ZeroDivisionError
  else Ret (total / PrimFloat.of_uint63 (Uint63.of_Z (Z.of_nat (size keys))))%float.

(** Python compares the pairs by their first components that differ. *)
Definition tuple_lt (x y : float * nat) : bool :=
  if PrimFloat.eqb x.1 y.1 then bool_decide (x.2 < y.2)%nat
  else PrimFloat.ltb x.1 y.1.

Definition tuple_ge (x y : float * nat) : Prop := tuple_lt x y = false.

#[global] Instance tuple_ge_dec x y : Decision (tuple_ge x y).
Proof. unfold tuple_ge. apply _. Defined.

Definition sort_givens (tree : Tree) (givens : list Tree) : result (list Tree) :=
  let act := atom_counts tree in
  scored ← mapM (fun ig : nat * Tree =>
                   c ← count_overlap act (atom_counts ig.2); mret (c, ig.1))
                (imap pair givens);
  let idxs := merge_sort tuple_ge scored in
  mapM (fun ci : float * nat => getitem givens ci.2) idxs.

Definition case_energy (tree b : Tree) (energy : Z) : result Z :=
  let act := atom_counts tree in
  let acb := atom_counts b in
  c ← count_overlap act acb;
  mret (if PrimFloat.ltb 0.75 c then Z.quot (energy * 2) 3
        else Z.quot (energy * 1) 3).

Definition split (rec : Tree → list Tree → Z → result bool)
    (tree : Tree) (givens : list Tree) (energy : Z) : result bool :=
  let igs := split_candidates givens in
  first_success
    (fun ig : nat * Tree =>
       lr ← unpack2 (kids ig.2);
       let gg := take ig.1 givens ++ drop (S ig.1) givens in
       all_success
         (fun b => en ← case_energy tree b energy; rec tree (b :: gg) en)
         [lr.1; lr.2])
    igs.

Definition can_prove_body (rec : Tree → list Tree → Z → result bool)
    (tree : Tree) (givens : list Tree) (energy : Z) : result bool :=
  if decide (energy ≤ 0)%Z then Ret false else
  let givens := break_open givens in
  givens ← sort_givens tree givens;
  let en := (energy - 1)%Z in
  ok ← easies rec tree givens en;
  if ok : bool then Ret true else
  ok ← slice rec tree givens energy;
  if ok : bool then Ret true else
  ok ← split rec tree givens energy;
  if ok : bool then Ret true else
  Ret false.

Fixpoint can_prove_upto (n : nat) : Tree → list Tree → Z → result bool :=
  match n with
  | O => fun _ _ _ => Ret false
  | S k => can_prove_body (can_prove_upto k)
  end.

Definition can_prove (tree : Tree) (givens : list Tree) (energy : Z) : result bool :=
  can_prove_upto (Z.to_nat energy) tree givens energy.

Definition run_example (problem : string * list string) : result bool :=
  cc ← tree_from_str problem.1;
  hhs ← mapM tree_from_str problem.2;
  can_prove cc hhs 10.

End Binary64.

(** ** Reference notions the properties are stated against *)

(** Intuitionistic natural deduction over atoms, [And], [Or] and [Imp]:
    the introduction and elimination rules of the three connectives, and
    nothing else. *)
Reserved Notation "Γ ⊢ A" (at level 70, no associativity).

Inductive derives : list Tree → Tree → Prop :=
  | derives_hyp Γ A : A ∈ Γ → Γ ⊢ A
  | derives_imp_intro Γ A B : A :: Γ ⊢ B → Γ ⊢ Imp A B
  | derives_imp_elim Γ A B : Γ ⊢ Imp A B → Γ ⊢ A → Γ ⊢ B
  | derives_and_intro Γ A B : Γ ⊢ A → Γ ⊢ B → Γ ⊢ And A B
  | derives_and_elim_l Γ A B : Γ ⊢ And A B → Γ ⊢ A
  | derives_and_elim_r Γ A B : Γ ⊢ And A B → Γ ⊢ B
  | derives_or_intro_l Γ A B : Γ ⊢ A → Γ ⊢ Or A B
  | derives_or_intro_r Γ A B : Γ ⊢ B → Γ ⊢ Or A B
  | derives_or_elim Γ A B C : Γ ⊢ Or A B → A :: Γ ⊢ C → B :: Γ ⊢ C → Γ ⊢ C
where "Γ ⊢ A" := (derives Γ A).

(** Kripke forcing over the two worlds [false ≤ true], to tell
    intuitionistic from classical derivability. *)
Definition world_le (w w' : bool) : Prop := w = true → w' = true.

Fixpoint forces (val : string → bool → Prop) (w : bool) (A : Tree) : Prop :=
  match A with
  | Atom c => val c w
  | And A B => forces val w A ∧ forces val w B
  | Or A B => forces val w A ∨ forces val w B
  | Imp A B => ∀ w', world_le w w' → forces val w' A → forces val w' B
  end.

Definition persistent (val : string → bool → Prop) : Prop :=
  ∀ c w w', world_le w w' → val c w → val c w'.

(** A computation that returns, whatever the value. *)
Definition total {A : Type} (m : result A) : Prop := ∃ a, m = Ret a.

(** A profile all of whose weights are strictly positive. *)
Definition positive_profile (m : gmap string Q) : Prop :=
  map_Forall (fun _ v => (0 < v)%Q) m.

(** The order the specification words describe for step 1: descending
    score, equal scores keeping their original order. *)
Definition stable_ge (x y : Q * nat) : Prop :=
  match (x.1 ?= y.1)%Q with
  | Gt => True
  | Lt => False
  | Eq => (x.2 ≤ y.2)%nat
  end.

#[global] Instance stable_ge_dec x y : Decision (stable_ge x y).
Proof. unfold stable_ge. destruct (_ ?= _)%Q; apply _. Defined.

(** Step 1 as the specification words it: a stable sort by descending
    score. *)
Definition stable_sort_givens (tree : Tree) (givens : list Tree)
  : result (list Tree) :=
  let act := atom_counts tree in
  scored ← mapM (fun ig : nat * Tree =>
                   c ← count_overlap act (atom_counts ig.2); mret (c, ig.1))
                (imap pair givens);
  let idxs := merge_sort stable_ge scored in
  mapM (fun ci : Q * nat => getitem givens ci.2) idxs.

(** The order [sorted(..., reverse=True)] yields on the pairs: descending
    score, equal scores by descending position. *)
Definition reverse_gt (x y : Q * nat) : Prop :=
  (y.1 < x.1)%Q ∨ ((x.1 == y.1)%Q ∧ (y.2 < x.2)%nat).

(** The budget of a case as the specification words it:
    [floor(energy * 2/3)] above the threshold, [floor(energy * 1/3)]
    otherwise. *)
Definition allocated_energy (c : Q) (energy : Z) : Z :=
  if Qlt_le_dec (3 # 4) c then (energy * 2 / 3)%Z else (energy * 1 / 3)%Z.

(** The energies of a caller and of a call it may make: a call with energy
    [e], past the energy check, may call itself with a smaller energy [e']. *)
Definition energy_call (e' e : Z) : Prop := (0 < e)%Z ∧ (e' < e)%Z.

(** The charge of the slice rule as the specification words it. *)
Definition slice_charge (n : nat) : Z := if decide (n = 1%nat) then 1%Z else 2%Z.

(** The tags of the atoms that occur in a formula. *)
Fixpoint atom_tags (tree : Tree) : gset string :=
  match tree with
  | Atom _ => {[ tag tree ]}
  | And a b | Or a b | Imp a b => atom_tags a ∪ atom_tags b
  end.

(** The grammar [LogicParser] reads, one level for each of the methods
    [expr], [disj], [conj] and [fact]. *)
Inductive level : Set := Lexpr | Ldisj | Lconj | Lfact.

Definition rank (l : level) : nat :=
  match l with Lexpr => 0 | Ldisj => 1 | Lconj => 2 | Lfact => 3 end.

Inductive grammar : level → string → Tree → Prop :=
  | grammar_atom c :
      LogicParser.isalpha c = true →
      grammar Lfact (String c "") (Atom (String c ""))
  | grammar_paren s t :
      grammar Lexpr s t → grammar Lfact ("(" +:+ s +:+ ")") t
  | grammar_conj_fact s t : grammar Lfact s t → grammar Lconj s t
  | grammar_conj s1 s2 a b :
      grammar Lfact s1 a → grammar Lconj s2 b →
      grammar Lconj (s1 +:+ "&" +:+ s2) (And a b)
  | grammar_disj_conj s t : grammar Lconj s t → grammar Ldisj s t
  | grammar_disj s1 s2 a b :
      grammar Lconj s1 a → grammar Ldisj s2 b →
      grammar Ldisj (s1 +:+ "+" +:+ s2) (Or a b)
  | grammar_expr_disj s t : grammar Ldisj s t → grammar Lexpr s t
  | grammar_expr s1 s2 a b :
      grammar Ldisj s1 a → grammar Lexpr s2 b →
      grammar Lexpr (s1 +:+ "->" +:+ s2) (Imp a b).

(** The method of each level. *)
Definition parse (l : level) : nat → string → nat → result (Tree * nat) :=
  match l with
  | Lexpr => LogicParser.expr
  | Ldisj => LogicParser.disj
  | Lconj => LogicParser.conj
  | Lfact => LogicParser.fact
  end.

(** The text after a formula begins with the character [c]. *)
Definition starts (rest : string) (c : ascii) : bool :=
  bool_decide (String.get 0 rest = Some c).

(** The text after a formula does not begin with an operator that the
    level, or a tighter one, would go on with. *)
Definition stops (l : level) (rest : string) : bool :=
  match l with
  | Lfact => true
  | Lconj => negb (starts rest "&")
  | Ldisj => negb (starts rest "&") && negb (starts rest "+")
  | Lexpr => negb (starts rest "&") && negb (starts rest "+")
             && negb (starts rest "-")
  end.

(** The text from position [idx] of [toks] on is [s]. *)
Definition suffix_at (toks : string) (idx : nat) (s : string) : Prop :=
  ∃ pre, toks = pre +:+ s ∧ String.length pre = idx.

(** Every atom is named by one letter. *)
Fixpoint letters (t : Tree) : bool :=
  match t with
  | Atom (String c "") => LogicParser.isalpha c
  | Atom _ => false
  | And a b | Or a b | Imp a b => letters a && letters b
  end.

(** A formula in the parser's notation, with the parentheses the levels
    require and no others. *)
Definition paren (b : bool) (s : string) : string :=
  if b then "(" +:+ s +:+ ")" else s.

Fixpoint show (l : level) (t : Tree) : string :=
  match t with
  | Atom c => c
  | And a b =>
      paren (bool_decide (rank Lconj < rank l)%nat)
            (show Lfact a +:+ "&" +:+ show Lconj b)
  | Or a b =>
      paren (bool_decide (rank Ldisj < rank l)%nat)
            (show Lconj a +:+ "+" +:+ show Ldisj b)
  | Imp a b =>
      paren (bool_decide (rank Lexpr < rank l)%nat)
            (show Ldisj a +:+ "->" +:+ show Lexpr b)
  end.

(** The outcome of a method called at [idx]: a tree with a cursor further
    on and inside the input, or one of the parser's two errors. *)
Definition parsed_within (toks : string) (idx : nat)
    (r : result (Tree * nat)) : Prop :=
  match r with
  | Ret (_, idx') => (idx < idx' ≤ String.length toks)%nat
  | Raise e => e = AssertionError ∨ e = AttributeError
  end.

(** * Properties *)

(** ** The error monad *)

Lemma bind_Ret {A B : Type} (m : result A) (f : A → result B) (b : B) :
  m ≫= f = Ret b ↔ ∃ a, m = Ret a ∧ f a = Ret b.
Proof.
  destruct m as [a|e]; simpl; split.
  - eauto.
  - intros (a' & [= <-] & Hf). exact Hf.
  - discriminate.
  - intros (a' & [=] & _).
Qed.

Lemma bind_ext {A B : Type} (m : result A) (f g : A → result B) :
  (∀ a, m = Ret a → f a = g a) → m ≫= f = m ≫= g.
Proof. destruct m; simpl; auto. Qed.

(** Inversion of a successful monadic computation, one bind at a time. *)
Ltac inv_bind H :=
  let x := fresh "x" in
  let Hx := fresh "Hx" in
  apply bind_Ret in H; destruct H as (x & Hx & H).

Lemma mapM_Ret_Forall2 {A B : Type} (f : A → result B) (l : list A) (k : list B) :
  mapM f l = Ret k ↔ Forall2 (fun x y => f x = Ret y) l k.
Proof.
  revert k. induction l as [|x l IH]; intros k; simpl.
  - split.
    + intros [= <-]. constructor.
    + intros Hk. inversion Hk. reflexivity.
  - split.
    + intros H. inv_bind H. inv_bind H. injection H as <-.
      constructor; [assumption | by apply IH].
    + intros Hk. inversion Hk as [|? y ? k' Hy Hk']; subst.
      rewrite Hy. simpl. apply IH in Hk'. rewrite Hk'. reflexivity.
Qed.

Lemma mapM_total {A B : Type} (f : A → result B) (l : list A) :
  Forall (fun x => total (f x)) l → total (mapM f l).
Proof.
  induction 1 as [|x l [y Hy] _ [k Hk]]; simpl.
  - by eexists.
  - rewrite Hy. simpl. rewrite Hk. by eexists.
Qed.

(** ** Tags and structural matching *)

Lemma tag_and t : tag t = "&" ↔ ∃ a b, t = And a b.
Proof.
  destruct t; simpl; split; intros H; try discriminate H;
    try (destruct H as (? & ? & ?); discriminate); eauto.
Qed.

Lemma tag_or t : tag t = "+" ↔ ∃ a b, t = Or a b.
Proof.
  destruct t; simpl; split; intros H; try discriminate H;
    try (destruct H as (? & ? & ?); discriminate); eauto.
Qed.

Lemma tag_imp t : tag t = "->" ↔ ∃ a b, t = Imp a b.
Proof.
  destruct t; simpl; split; intros H; try discriminate H;
    try (destruct H as (? & ? & ?); discriminate); eauto.
Qed.

Lemma is_atom_spec t : is_atom t = true ↔ ∃ c, t = Atom c.
Proof.
  unfold is_atom. rewrite bool_decide_eq_true.
  destruct t as [c| | |]; simpl; split; intros H; try discriminate H;
    try (destruct H as (? & ?); discriminate); eauto.
  by destruct c.
Qed.

Lemma matches_unfold self pattern :
  matches self pattern =
  if decide (tag self ≠ tag pattern) then false else
  if decide (nb_kids self ≠ nb_kids pattern) then false else
  match self, pattern with
  | Atom _, Atom _ => true
  | And a b, And a' b' | Or a b, Or a' b' | Imp a b, Imp a' b' =>
      if negb (matches a a') then false
      else if negb (matches b b') then false
      else true
  | _, _ => false
  end.
Proof. by destruct self. Qed.

Lemma matches_refl t : matches t t = true.
Proof.
  induction t; rewrite matches_unfold;
    (destruct (decide _); [congruence|]);
    (destruct (decide _); [congruence|]);
    try reflexivity; by rewrite IHt1, IHt2.
Qed.

Lemma matches_eq self pattern : matches self pattern = true ↔ self = pattern.
Proof.
  split; [| intros ->; apply matches_refl].
  revert pattern.
  induction self as [c|a IHa b IHb|a IHa b IHb|a IHa b IHb];
    intros [c'|a' b'|a' b'|a' b']; rewrite matches_unfold;
    (destruct (decide _) as [|Ht]; [discriminate|]);
    (destruct (decide _) as [|_]; [discriminate|]); try discriminate;
    try (destruct (matches a a') eqn:Ha; [|discriminate];
         destruct (matches b b') eqn:Hb; [|discriminate];
         intros _; f_equal; auto).
  intros _. apply dec_stable in Ht. simpl in Ht. congruence.
Qed.

(** ** Atom profiles *)

Lemma weights_pos tree : (0 < (weights tree).1)%Q ∧ (0 < (weights tree).2)%Q.
Proof. unfold weights. repeat case_decide; simpl; split; reflexivity. Qed.

Lemma accumulate_pos w aa cc :
  (0 < w)%Q → positive_profile aa → positive_profile cc →
  positive_profile (accumulate w aa cc).
Proof.
  intros Hw Haa Hcc. revert Haa. unfold accumulate.
  apply (map_fold_weak_ind (fun r m => positive_profile m → positive_profile r)).
  - intros _. exact Hcc.
  - intros k v m r Hk IH Hm.
    apply map_Forall_insert in Hm as [Hv Hm]; [|exact Hk].
    specialize (IH Hm).
    apply map_Forall_insert_2; [|exact IH].
    assert (0 <= default 0 (r !! k))%Q as Hd.
    { destruct (r !! k) as [u|] eqn:Hu; simpl; [|apply Qle_refl].
      apply Qlt_le_weak. exact (IH k u Hu). }
    pose proof (Qmult_lt_0_compat w v Hw Hv) as Hwv.
    apply Qlt_le_trans with (0 + w * v)%Q.
    + rewrite Qplus_0_l. exact Hwv.
    + apply Qplus_le_l. exact Hd.
Qed.

Lemma accumulate_nonempty w aa cc :
  aa ≠ ∅ ∨ cc ≠ ∅ → accumulate w aa cc ≠ ∅.
Proof.
  unfold accumulate.
  apply (map_fold_weak_ind (fun r m => m ≠ ∅ ∨ cc ≠ ∅ → r ≠ ∅)).
  - intros [H|H]; [by destruct H | exact H].
  - intros k v m r _ _ _. apply insert_non_empty.
Qed.

Lemma atom_counts_node tree aa bb :
  (match tree with Atom _ => False | _ => True end) →
  kids tree = [aa; bb] →
  atom_counts tree =
    accumulate (weights tree).2 (atom_counts bb)
      (accumulate (weights tree).1 (atom_counts aa) ∅).
Proof.
  destruct tree; simpl; intros H [= <- <-]; try done;
    by destruct (weights _).
Qed.

Lemma atom_counts_nonempty tree : atom_counts tree ≠ ∅.
Proof.
  induction tree as [c|a0 IHa b _|a0 IHa b _|a0 IHa b _];
    [simpl; apply insert_non_empty | ..];
    rewrite (atom_counts_node _ a0 b) by done;
    apply accumulate_nonempty; right; apply accumulate_nonempty; by left.
Qed.

Lemma atom_counts_pos tree : positive_profile (atom_counts tree).
Proof.
  induction tree as [c|a0 IHa b IHb|a0 IHa b IHb|a0 IHa b IHb];
    [simpl; apply map_Forall_singleton; reflexivity | ..];
    rewrite (atom_counts_node _ a0 b) by done;
    (apply accumulate_pos; [apply weights_pos | exact IHb |]);
    (apply accumulate_pos; [apply weights_pos | exact IHa |]);
    apply map_Forall_empty.
Qed.

(** ** Overlap *)

Lemma count_overlap_raises aa bb :
  count_overlap aa bb = Raise ZeroDivisionError ↔ aa = ∅ ∧ bb = ∅.
Proof.
  unfold count_overlap. case_decide as Hsz; split.
  - intros _. apply size_empty_inv in Hsz. apply leibniz_equiv in Hsz.
    apply empty_union_L in Hsz as [Ha Hb].
    by apply dom_empty_inv_L in Ha, Hb.
  - reflexivity.
  - discriminate.
  - intros [-> ->]. destruct Hsz. by rewrite !dom_empty_L, union_empty_l_L.
Qed.

Lemma count_overlap_total aa bb :
  aa ≠ ∅ ∨ bb ≠ ∅ → total (count_overlap aa bb).
Proof.
  intros Hne. destruct (count_overlap aa bb) as [c|e] eqn:Hc; [by eexists|].
  assert (e = ZeroDivisionError) as ->.
  { unfold count_overlap in Hc. by case_decide; simplify_eq. }
  apply count_overlap_raises in Hc as [-> ->]. by destruct Hne.
Qed.

Lemma count_overlap_atom_counts tree b :
  total (count_overlap (atom_counts tree) (atom_counts b)).
Proof. apply count_overlap_total. left. apply atom_counts_nonempty. Qed.

(** ** The order of the pairs and the sort *)

Lemma tuple_ge_spec x y :
  tuple_ge x y ↔ (y.1 < x.1)%Q ∨ ((x.1 == y.1)%Q ∧ (y.2 ≤ x.2)%nat).
Proof.
  unfold tuple_ge, tuple_lt.
  destruct (Qcompare_spec x.1 y.1) as [Heq|Hlt|Hgt].
  - rewrite bool_decide_eq_false. split.
    + intros Hn. right. split; [exact Heq | lia].
    + intros [Hlt|[_ Hle]]; [| lia]. rewrite Heq in Hlt.
      by apply Qlt_irrefl in Hlt.
  - split; [discriminate|]. intros [Hgt|[Heq _]].
    + exfalso. apply (Qlt_irrefl x.1). by apply Qlt_trans with y.1.
    + rewrite Heq in Hlt. by apply Qlt_irrefl in Hlt.
  - split; [by left | reflexivity].
Qed.

#[global] Instance tuple_ge_total : Total tuple_ge.
Proof.
  intros x y. rewrite !tuple_ge_spec.
  destruct (Q_dec x.1 y.1) as [[Hlt|Hgt]|Heq]; [by right; left | by left; left |].
  destruct (decide (y.2 ≤ x.2)%nat).
  - left. by right.
  - right. right. split; [by symmetry | lia].
Qed.

#[global] Instance tuple_ge_trans : Transitive tuple_ge.
Proof.
  intros x y z. rewrite !tuple_ge_spec.
  intros [Hxy|[Hxy Hxy']] [Hyz|[Hyz Hyz']].
  - left. by apply Qlt_trans with y.1.
  - left. by rewrite <- Hyz.
  - left. by rewrite Hxy.
  - right. split; [by rewrite Hxy | lia].
Qed.

Lemma sorted_reverse_perm l : sorted_reverse l ≡ₚ l.
Proof. apply merge_sort_Permutation. Qed.

Lemma sorted_reverse_sorted l : StronglySorted tuple_ge (sorted_reverse l).
Proof. apply (StronglySorted_merge_sort _). Qed.

(** On pairs with distinct positions the order is strict. *)
Lemma tuple_ge_reverse_gt x y : x.2 ≠ y.2 → tuple_ge x y → reverse_gt x y.
Proof.
  rewrite tuple_ge_spec. unfold reverse_gt. intros Hne [H|[H H']]; [by left|].
  right. split; [exact H | lia].
Qed.

Lemma StronglySorted_impl_NoDup {A B : Type} (R R' : relation A) (f : A → B) l :
  (∀ x y, f x ≠ f y → R x y → R' x y) →
  NoDup (f <$> l) → StronglySorted R l → StronglySorted R' l.
Proof.
  intros HR. induction l as [|x l IH]; intros Hnd Hs; [constructor|].
  rewrite fmap_cons in Hnd. apply NoDup_cons in Hnd as [Hx Hnd].
  apply StronglySorted_inv in Hs as [Hs Hall].
  constructor; [by apply IH|].
  rewrite Forall_forall in Hall |- *. intros y Hy.
  apply HR; [|by apply Hall].
  intros Heq. apply Hx. rewrite Heq. by apply list_elem_of_fmap_2.
Qed.

#[global] Instance reverse_gt_trans : Transitive reverse_gt.
Proof.
  intros x y z. unfold reverse_gt.
  intros [Hxy|[Hxy Hxy']] [Hyz|[Hyz Hyz']].
  - left. by apply Qlt_trans with y.1.
  - left. by rewrite <- Hyz.
  - left. by rewrite Hxy.
  - right. split; [by rewrite Hxy | lia].
Qed.

#[global] Instance reverse_gt_antisymm : AntiSymm (=) reverse_gt.
Proof.
  intros x y. unfold reverse_gt. intros [Hxy|[Hxy Hxy']] [Hyx|[Hyx Hyx']].
  - exfalso. apply (Qlt_irrefl x.1). by apply Qlt_trans with y.1.
  - exfalso. rewrite Hyx in Hxy. by apply Qlt_irrefl in Hxy.
  - exfalso. rewrite Hxy in Hyx. by apply Qlt_irrefl in Hyx.
  - lia.
Qed.

(** The descending arrangement of pairs with distinct positions is unique:
    whichever algorithm [sorted] runs, this is its result. *)
Lemma sorted_reverse_unique l k :
  NoDup (snd <$> l) → k ≡ₚ l → StronglySorted reverse_gt k →
  k = sorted_reverse l.
Proof.
  intros Hnd Hperm Hk. apply (StronglySorted_unique reverse_gt); [exact Hk| |].
  - eapply (StronglySorted_impl_NoDup tuple_ge reverse_gt snd).
    + intros x y. apply tuple_ge_reverse_gt.
    + by rewrite sorted_reverse_perm.
    + apply sorted_reverse_sorted.
  - by rewrite sorted_reverse_perm.
Qed.

Lemma getitem_Ret {A : Type} (l : list A) i x : getitem l i = Ret x ↔ l !! i = Some x.
Proof. unfold getitem. destruct (l !! i); split; congruence. Qed.

Lemma Forall2_fmap_eq {A B C : Type} (f : A → C) (g : B → C) l k :
  Forall2 (fun x y => g y = f x) l k → g <$> k = f <$> l.
Proof. induction 1; csimpl; congruence. Qed.

Lemma Forall2_with_Forall_l {A B : Type} (P : A → Prop) (R : A → B → Prop) l k :
  Forall P l → Forall2 R l k → Forall2 (fun x y => P x ∧ R x y) l k.
Proof.
  intros HP HR. induction HR; constructor; inversion HP; subst; auto.
Qed.

Lemma fst_imap_pair {A : Type} (l : list A) : fst <$> imap pair l = seq 0 (length l).
Proof.
  rewrite fmap_imap. rewrite (imap_ext _ (fun j _ => id j)) by done.
  rewrite imap_seq_0. apply list_fmap_id.
Qed.

(** Step 1 never raises, and its result is the givens rearranged so that
    the pairs (score, original position) are strictly descending. *)
Lemma sort_givens_spec tree givens :
  ∃ idxs gs,
    sort_givens tree givens = Ret gs ∧
    StronglySorted reverse_gt idxs ∧
    snd <$> idxs ≡ₚ seq 0 (length givens) ∧
    Forall2 (fun ci g =>
               givens !! ci.2 = Some g ∧
               count_overlap (atom_counts tree) (atom_counts g) = Ret ci.1)
            idxs gs.
Proof.
  unfold sort_givens.
  set (f := fun ig : nat * Tree =>
              count_overlap (atom_counts tree) (atom_counts ig.2)
              ≫= (fun c => mret (c, ig.1))).
  destruct (mapM_total f (imap pair givens)) as [scored Hscored].
  { apply Forall_forall. intros ig _. unfold f.
    destruct (count_overlap_atom_counts tree ig.2) as [c ->]. by eexists. }
  rewrite Hscored. simpl.
  apply mapM_Ret_Forall2 in Hscored.
  assert (Forall2 (fun ig sc =>
            sc.2 = ig.1 ∧
            count_overlap (atom_counts tree) (atom_counts ig.2) = Ret sc.1)
          (imap pair givens) scored) as Hrel.
  { eapply Forall2_impl; [exact Hscored|]. intros ig sc H. unfold f in H.
    inv_bind H. injection H as <-. by split. }
  assert (snd <$> scored = seq 0 (length givens)) as Hsnd.
  { rewrite <- fst_imap_pair. apply Forall2_fmap_eq.
    eapply Forall2_impl; [exact Hrel|]. by intros ? ? [? _]. }
  pose proof (sorted_reverse_perm scored) as Hperm.
  assert (snd <$> sorted_reverse scored ≡ₚ seq 0 (length givens)) as Hidx.
  { rewrite <- Hsnd. by apply fmap_Permutation. }
  assert (Forall (fun ci => ∃ g, givens !! ci.2 = Some g ∧
            count_overlap (atom_counts tree) (atom_counts g) = Ret ci.1)
          (sorted_reverse scored)) as Hall.
  { apply Forall_forall. intros ci Hci. rewrite Hperm in Hci.
    apply list_elem_of_lookup in Hci as [j Hj].
    destruct (Forall2_lookup_r _ _ _ _ _ Hrel Hj) as (ig & Hig & Hi & Hc).
    apply list_lookup_imap_Some in Hig as (g & Hg & ->). simpl in *.
    exists g. rewrite Hi. by split. }
  destruct (mapM_total (fun ci : Q * nat => getitem givens ci.2)
              (sorted_reverse scored)) as [gs Hgs].
  { eapply Forall_impl; [exact Hall|]. intros ci (g & Hg & _).
    exists g. by apply getitem_Ret. }
  exists (sorted_reverse scored), gs. split; [exact Hgs|]. split; [|split].
  - eapply (StronglySorted_impl_NoDup tuple_ge reverse_gt snd).
    + intros x y. apply tuple_ge_reverse_gt.
    + rewrite Hidx. apply NoDup_seq.
    + apply sorted_reverse_sorted.
  - exact Hidx.
  - apply mapM_Ret_Forall2 in Hgs.
    eapply Forall2_impl; [exact (Forall2_with_Forall_l _ _ _ _ Hall Hgs)|].
    intros ci g [(g' & Hg' & Hc) Hg]. apply getitem_Ret in Hg.
    assert (g' = g) as -> by congruence. by split.
Qed.

Lemma lookups_of_seq {A : Type} (d : A) (l : list A) :
  (fun i => default d (l !! i)) <$> seq 0 (length l) = l.
Proof.
  apply list_eq. intros i. rewrite list_lookup_fmap.
  destruct (decide (i < length l)%nat) as [Hi|Hi].
  - rewrite lookup_seq_lt by done. simpl.
    destruct (lookup_lt_is_Some_2 l i Hi) as [x Hx]. by rewrite Hx.
  - rewrite lookup_seq_ge by lia. simpl. symmetry. apply lookup_ge_None. lia.
Qed.

Lemma sort_givens_perm tree givens gs :
  sort_givens tree givens = Ret gs → gs ≡ₚ givens.
Proof.
  intros Hgs.
  destruct (sort_givens_spec tree givens) as (idxs & gs' & Hgs' & _ & Hidx & Hrel).
  assert (gs' = gs) as -> by congruence.
  assert (gs = (fun i => default (Atom "") (givens !! i)) <$> (snd <$> idxs)) as ->.
  { rewrite <- list_fmap_compose, <- (list_fmap_id gs).
    apply Forall2_fmap_eq. eapply Forall2_impl; [exact Hrel|].
    intros ci g [Hg _]. simpl. by rewrite Hg. }
  rewrite Hidx. by rewrite lookups_of_seq.
Qed.

Lemma sort_givens_total tree givens : total (sort_givens tree givens).
Proof. destruct (sort_givens_spec tree givens) as (? & gs & ? & _). by exists gs. Qed.

(** ** The two loop shapes *)

Lemma first_success_ext {A : Type} (f g : A → result bool) l :
  (∀ x, x ∈ l → f x = g x) → first_success f l = first_success g l.
Proof.
  induction l as [|x l IH]; intros Hfg; simpl; [done|].
  rewrite (Hfg x) by left. rewrite IH; [done|].
  intros y Hy. apply Hfg. by right.
Qed.

Lemma first_success_total {A : Type} (f : A → result bool) l :
  (∀ x, x ∈ l → total (f x)) → total (first_success f l).
Proof.
  induction l as [|x l IH]; intros Hf; simpl; [by eexists|].
  destruct (Hf x) as [[] ->]; [left | by eexists |]. simpl.
  apply IH. intros y Hy. apply Hf. by right.
Qed.

Lemma first_success_true_1 {A : Type} (f : A → result bool) l :
  first_success f l = Ret true → ∃ x, x ∈ l ∧ f x = Ret true.
Proof.
  induction l as [|x l IH]; simpl; [discriminate|]. intros H. inv_bind H.
  destruct x0.
  - exists x. split; [left | done].
  - destruct (IH H) as (y & Hy & Hfy). exists y. split; [by right | done].
Qed.

Lemma first_success_true_2 {A : Type} (f : A → result bool) l x :
  (∀ y, y ∈ l → total (f y)) → x ∈ l → f x = Ret true →
  first_success f l = Ret true.
Proof.
  induction l as [|y l IH]; intros Hf Hx Hfx; [by apply elem_of_nil in Hx|].
  simpl. destruct (Hf y) as [[] Hy]; [left | by rewrite Hy |].
  rewrite Hy. simpl. apply elem_of_cons in Hx as [->|Hx]; [congruence|].
  apply IH; [|done..]. intros z Hz. apply Hf. by right.
Qed.

Lemma first_success_true {A : Type} (f : A → result bool) l :
  (∀ y, y ∈ l → total (f y)) →
  first_success f l = Ret true ↔ ∃ x, x ∈ l ∧ f x = Ret true.
Proof.
  intros Hf. split; [apply first_success_true_1|].
  intros (x & Hx & Hfx). by apply first_success_true_2 with x.
Qed.

Lemma all_success_ext {A : Type} (f g : A → result bool) l :
  (∀ x, x ∈ l → f x = g x) → all_success f l = all_success g l.
Proof.
  induction l as [|x l IH]; intros Hfg; simpl; [done|].
  rewrite (Hfg x) by left. rewrite IH; [done|].
  intros y Hy. apply Hfg. by right.
Qed.

Lemma all_success_total {A : Type} (f : A → result bool) l :
  (∀ x, x ∈ l → total (f x)) → total (all_success f l).
Proof.
  induction l as [|x l IH]; intros Hf; simpl; [by eexists|].
  destruct (Hf x) as [[] ->]; [left | | by eexists]. simpl.
  apply IH. intros y Hy. apply Hf. by right.
Qed.

Lemma all_success_true {A : Type} (f : A → result bool) l :
  all_success f l = Ret true ↔ ∀ x, x ∈ l → f x = Ret true.
Proof.
  induction l as [|x l IH]; simpl.
  - split; [|done]. intros _ x Hx. by apply elem_of_nil in Hx.
  - split.
    + intros H. inv_bind H. destruct x0; [|discriminate]. simpl in H.
      intros y Hy. apply elem_of_cons in Hy as [->|Hy]; [done|]. by apply IH.
    + intros Hf. rewrite (Hf x) by left. simpl. apply IH.
      intros y Hy. apply Hf. by right.
Qed.

(** ** The energy of a case *)

Lemma case_energy_spec tree b energy :
  (0 < energy)%Z →
  ∃ c, count_overlap (atom_counts tree) (atom_counts b) = Ret c ∧
       case_energy tree b energy = Ret (allocated_energy c energy).
Proof.
  intros Hpos. destruct (count_overlap_atom_counts tree b) as [c Hc].
  exists c. split; [exact Hc|]. unfold case_energy, allocated_energy.
  rewrite Hc. simpl. destruct (Qlt_le_dec _ _);
    by rewrite Z.quot_div_nonneg by lia.
Qed.

Lemma case_energy_total tree b energy : total (case_energy tree b energy).
Proof.
  unfold case_energy. destruct (count_overlap_atom_counts tree b) as [c ->].
  by eexists.
Qed.

Lemma allocated_energy_lt c energy :
  (0 < energy)%Z → (allocated_energy c energy < energy)%Z.
Proof.
  intros Hpos. unfold allocated_energy.
  destruct (Qlt_le_dec _ _); apply Z.div_lt_upper_bound; lia.
Qed.

Lemma allocated_energy_mono c e e' :
  (e ≤ e')%Z → (allocated_energy c e ≤ allocated_energy c e')%Z.
Proof.
  intros Hle. unfold allocated_energy.
  destruct (Qlt_le_dec _ _); apply Z.div_le_mono; lia.
Qed.

Lemma case_energy_lt tree b energy en :
  (0 < energy)%Z → case_energy tree b energy = Ret en → (en < energy)%Z.
Proof.
  intros Hpos Hen. destruct (case_energy_spec tree b energy Hpos) as (c & _ & Hc).
  assert (en = allocated_energy c energy) as -> by congruence.
  by apply allocated_energy_lt.
Qed.

(** ** Candidates of the elimination rules *)

Lemma slice_candidates_spec tree givens g :
  g ∈ slice_candidates tree givens ↔ g ∈ givens ∧ ∃ hypo, g = Imp hypo tree.
Proof.
  unfold slice_candidates. rewrite list_elem_of_filter.
  rewrite andb_True, bool_decide_spec, tag_imp. split.
  - intros [[(h & c & ->) Hm] Hg]. split; [exact Hg|]. simpl in Hm.
    apply Is_true_true, matches_eq in Hm as ->. by exists h.
  - intros [Hg (h & ->)]. split; [|exact Hg]. split; [by exists h, tree|].
    simpl. apply Is_true_true, matches_refl.
Qed.

Lemma split_candidates_spec givens i g :
  (i, g) ∈ split_candidates givens ↔
  givens !! i = Some g ∧ ∃ lft rht, g = Or lft rht.
Proof.
  unfold split_candidates. rewrite list_elem_of_filter. simpl.
  rewrite tag_or, elem_of_lookup_imap. split.
  - intros [Hor (j & y & [= -> ->] & Hj)]. by split.
  - intros [Hg Hor]. split; [exact Hor|]. by exists i, g.
Qed.

(** ** The recursive calls of one invocation *)

Section Calls.
Variables rec1 rec2 : Tree → list Tree → Z → result bool.

Lemma easies_ext tree givens en :
  (∀ t g, rec1 t g en = rec2 t g en) →
  easies rec1 tree givens en = easies rec2 tree givens en.
Proof. intros H. destruct tree; simpl; by rewrite ?H. Qed.

Lemma slice_ext tree givens energy :
  (∀ t g, rec1 t g (energy - slice_charge (length (slice_candidates tree givens)))%Z
        = rec2 t g (energy - slice_charge (length (slice_candidates tree givens)))%Z) →
  slice rec1 tree givens energy = slice rec2 tree givens energy.
Proof.
  intros H. unfold slice. apply first_success_ext. intros g _.
  apply bind_ext. intros hc _. apply H.
Qed.

Lemma split_ext tree givens energy :
  (∀ t g e, (e < energy)%Z → rec1 t g e = rec2 t g e) → (0 < energy)%Z →
  split rec1 tree givens energy = split rec2 tree givens energy.
Proof.
  intros H Hpos. unfold split. apply first_success_ext. intros ig _.
  apply bind_ext. intros lr _. apply all_success_ext. intros b _.
  apply bind_ext. intros en Hen. apply H. by apply case_energy_lt in Hen.
Qed.

Lemma can_prove_body_ext tree givens energy :
  (∀ t g e, energy_call e energy → rec1 t g e = rec2 t g e) →
  can_prove_body rec1 tree givens energy = can_prove_body rec2 tree givens energy.
Proof.
  intros H. unfold can_prove_body. case_decide as Hpos; [done|].
  assert (∀ t g e, (e < energy)%Z → rec1 t g e = rec2 t g e) as H'
    by (intros; apply H; split; lia).
  destruct (sort_givens tree (break_open givens)) as [gs|]; simpl; [|done].
  rewrite (easies_ext tree gs) by (intros; apply H'; lia).
  rewrite (slice_ext tree gs)
    by (intros; apply H'; unfold slice_charge; case_decide; lia).
  rewrite (split_ext tree gs) by (done || lia).
  reflexivity.
Qed.
End Calls.

Lemma energy_call_wf : well_founded energy_call.
Proof.
  assert (∀ n e, (Z.to_nat e ≤ n)%nat → Acc energy_call e) as Hacc.
  { induction n as [|n IH]; intros e He; constructor; intros e' [Hpos Hlt].
    - lia.
    - apply IH. lia. }
  intros e. by apply (Hacc (Z.to_nat e)).
Qed.

(** The measure is large enough: more of it changes nothing. *)
Lemma can_prove_upto_stable n tree givens energy :
  (Z.to_nat energy ≤ n)%nat →
  can_prove_upto n tree givens energy = can_prove tree givens energy.
Proof.
  unfold can_prove. revert tree givens energy.
  induction (lt_wf n) as [n _ IH]. intros tree givens energy Hn.
  destruct n as [|n], (Z.to_nat energy) as [|m] eqn:Hm; try lia; try done.
  - simpl. unfold can_prove_body. case_decide; [done | lia].
  - simpl. apply can_prove_body_ext. intros t g e [_ He].
    rewrite (IH n) by lia. rewrite (IH m) by lia. reflexivity.
Qed.

(** [can_prove] satisfies the recursion of the source. *)
Lemma can_prove_eq tree givens energy :
  can_prove tree givens energy = can_prove_body can_prove tree givens energy.
Proof.
  unfold can_prove at 1. destruct (Z.to_nat energy) as [|m] eqn:Hm; simpl.
  - unfold can_prove_body. case_decide; [done | lia].
  - apply can_prove_body_ext. intros t g e [_ He].
    apply can_prove_upto_stable. lia.
Qed.

(** ** No rule raises *)

Section Totality.
Variable rec : Tree → list Tree → Z → result bool.
Hypothesis rec_total : ∀ t g e, total (rec t g e).

Lemma easies_total tree givens en : total (easies rec tree givens en).
Proof.
  destruct tree as [c|x y|x y|x y]; simpl.
  - apply first_success_total. intros g _. by eexists.
  - destruct (rec_total x givens en) as [[] ->]; simpl; [|by eexists].
    destruct (rec_total y (givens ++ [x]) en) as [[] ->]; by eexists.
  - destruct (rec_total x givens en) as [[] ->]; simpl; [by eexists|].
    destruct (rec_total y givens en) as [[] ->]; by eexists.
  - destruct (rec_total y (x :: givens) en) as [[] ->]; by eexists.
Qed.

Lemma slice_attempt_total tree givens en g :
  g ∈ slice_candidates tree givens →
  total (hc ← unpack2 (kids g); rec hc.1 givens en).
Proof.
  intros Hg. apply slice_candidates_spec in Hg as [_ (hypo & ->)]. simpl.
  apply rec_total.
Qed.

Lemma slice_total tree givens energy : total (slice rec tree givens energy).
Proof.
  unfold slice. apply first_success_total. intros g Hg.
  by apply slice_attempt_total with tree.
Qed.

Lemma split_case_total tree gg energy b :
  total (en ← case_energy tree b energy; rec tree (b :: gg) en).
Proof.
  destruct (case_energy_total tree b energy) as [en ->]. simpl. apply rec_total.
Qed.

Lemma split_attempt_total tree givens energy ig :
  ig ∈ split_candidates givens →
  total (lr ← unpack2 (kids ig.2);
         all_success
           (fun b => en ← case_energy tree b energy;
                     rec tree (b :: take ig.1 givens ++ drop (S ig.1) givens) en)
           [lr.1; lr.2]).
Proof.
  destruct ig as [i g]. intros Hg.
  apply split_candidates_spec in Hg as [_ (lft & rht & ->)].
  cbn [kids unpack2 mbind result_bind]. apply all_success_total.
  intros b _. apply split_case_total.
Qed.

Lemma split_total tree givens energy : total (split rec tree givens energy).
Proof.
  unfold split. apply first_success_total. intros ig Hig.
  by apply split_attempt_total.
Qed.

Lemma can_prove_body_total tree givens energy :
  total (can_prove_body rec tree givens energy).
Proof.
  unfold can_prove_body. case_decide; [by eexists|].
  destruct (sort_givens_total tree (break_open givens)) as [gs ->]. simpl.
  destruct (easies_total tree gs (energy - 1)) as [[] ->]; simpl; [by eexists|].
  destruct (slice_total tree gs energy) as [[] ->]; simpl; [by eexists|].
  destruct (split_total tree gs energy) as [[] ->]; by eexists.
Qed.

(** ** What makes each rule succeed *)

Lemma easies_atom_true c givens en :
  easies rec (Atom c) givens en = Ret true ↔ Atom c ∈ givens.
Proof.
  simpl. rewrite first_success_true by (intros; by eexists). split.
  - intros (g & Hg & [= Hok]). apply andb_true_iff in Hok as [Hat Htag].
    apply is_atom_spec in Hat as [c' ->]. apply bool_decide_eq_true in Htag.
    by injection Htag as ->.
  - intros Hc. exists (Atom c). split; [exact Hc|]. f_equal.
    apply andb_true_iff. split; [apply is_atom_spec; by exists c|].
    by apply bool_decide_eq_true.
Qed.

Lemma easies_imp_true hypo conc givens en :
  easies rec (Imp hypo conc) givens en = Ret true ↔
  rec conc (hypo :: givens) en = Ret true.
Proof.
  simpl. destruct (rec_total conc (hypo :: givens) en) as [[] ->]; simpl;
    split; congruence.
Qed.

Lemma easies_or_true lft rht givens en :
  easies rec (Or lft rht) givens en = Ret true ↔
  rec lft givens en = Ret true ∨ rec rht givens en = Ret true.
Proof.
  simpl. destruct (rec_total lft givens en) as [[] ->]; simpl;
    [intuition congruence|].
  destruct (rec_total rht givens en) as [[] ->]; simpl; intuition congruence.
Qed.

Lemma easies_and_true x y givens en :
  easies rec (And x y) givens en = Ret true ↔
  rec x givens en = Ret true ∧ rec y (givens ++ [x]) en = Ret true.
Proof.
  simpl. destruct (rec_total x givens en) as [[] ->]; simpl;
    [|intuition congruence].
  destruct (rec_total y (givens ++ [x]) en) as [[] ->]; simpl;
    intuition congruence.
Qed.

Lemma slice_true tree givens energy :
  slice rec tree givens energy = Ret true ↔
  ∃ hypo, Imp hypo tree ∈ givens ∧
          rec hypo givens
              (energy - slice_charge (length (slice_candidates tree givens)))
          = Ret true.
Proof.
  unfold slice.
  rewrite first_success_true by (intros; by eapply slice_attempt_total).
  split.
  - intros (g & Hg & Hrec).
    apply slice_candidates_spec in Hg as [Hg (hypo & ->)]. by exists hypo.
  - intros (hypo & Hg & Hrec). exists (Imp hypo tree). split; [|exact Hrec].
    apply slice_candidates_spec. split; [exact Hg | by exists hypo].
Qed.

Lemma split_true tree givens energy :
  (0 < energy)%Z →
  split rec tree givens energy = Ret true ↔
  ∃ i lft rht cl cr,
    givens !! i = Some (Or lft rht) ∧
    count_overlap (atom_counts tree) (atom_counts lft) = Ret cl ∧
    count_overlap (atom_counts tree) (atom_counts rht) = Ret cr ∧
    rec tree (lft :: delete i givens) (allocated_energy cl energy) = Ret true ∧
    rec tree (rht :: delete i givens) (allocated_energy cr energy) = Ret true.
Proof.
  intros Hpos. unfold split.
  rewrite first_success_true by (intros; by apply split_attempt_total).
  split.
  - intros ([i g] & Hg & Hrec).
    apply split_candidates_spec in Hg as [Hg (lft & rht & ->)].
    cbn [kids unpack2 mbind result_bind fst snd] in Hrec.
    rewrite all_success_true in Hrec.
    destruct (case_energy_spec tree lft energy Hpos) as (cl & Hcl & Hel).
    destruct (case_energy_spec tree rht energy Hpos) as (cr & Hcr & Her).
    exists i, lft, rht, cl, cr. rewrite delete_take_drop.
    pose proof (Hrec lft ltac:(set_solver)) as Hl.
    pose proof (Hrec rht ltac:(set_solver)) as Hr.
    rewrite Hel in Hl. rewrite Her in Hr. done.
  - intros (i & lft & rht & cl & cr & Hg & Hcl & Hcr & Hl & Hr).
    exists (i, Or lft rht). split.
    { apply split_candidates_spec. split; [exact Hg | by exists lft, rht]. }
    cbn [kids unpack2 mbind result_bind fst snd].
    rewrite all_success_true. rewrite delete_take_drop in Hl, Hr.
    destruct (case_energy_spec tree lft energy Hpos) as (cl' & Hcl' & Hel).
    destruct (case_energy_spec tree rht energy Hpos) as (cr' & Hcr' & Her).
    assert (cl' = cl) as -> by congruence.
    assert (cr' = cr) as -> by congruence.
    intros b Hb. apply elem_of_cons in Hb as [->|Hb].
    + by rewrite Hel.
    + apply list_elem_of_singleton in Hb as ->. by rewrite Her.
Qed.

Lemma can_prove_body_true tree givens energy gs :
  (0 < energy)%Z → sort_givens tree (break_open givens) = Ret gs →
  can_prove_body rec tree givens energy = Ret true ↔
  easies rec tree gs (energy - 1) = Ret true ∨
  slice rec tree gs energy = Ret true ∨
  split rec tree gs energy = Ret true.
Proof.
  intros Hpos Hgs. unfold can_prove_body. case_decide; [lia|].
  rewrite Hgs. simpl.
  destruct (easies_total tree gs (energy - 1)) as [[] ->]; simpl;
    [intuition congruence|].
  destruct (slice_total tree gs energy) as [[] ->]; simpl;
    [intuition congruence|].
  destruct (split_total tree gs energy) as [[] ->]; simpl;
    intuition congruence.
Qed.
End Totality.

Lemma can_prove_upto_total n tree givens energy :
  total (can_prove_upto n tree givens energy).
Proof.
  revert tree givens energy. induction n as [|n IH]; intros; simpl.
  - by eexists.
  - by apply can_prove_body_total.
Qed.

Lemma can_prove_total tree givens energy : total (can_prove tree givens energy).
Proof. apply can_prove_upto_total. Qed.

Lemma can_prove_nonpositive tree givens energy :
  (energy ≤ 0)%Z → can_prove tree givens energy = Ret false.
Proof.
  intros H. rewrite can_prove_eq. unfold can_prove_body. by case_decide.
Qed.

Lemma can_prove_true_pos tree givens energy :
  can_prove tree givens energy = Ret true → (0 < energy)%Z.
Proof.
  intros H. destruct (decide (0 < energy)%Z); [done|].
  rewrite can_prove_nonpositive in H by lia. discriminate.
Qed.

(** ** Natural deduction: structural properties *)

Lemma derives_weaken Γ A : Γ ⊢ A → ∀ Δ, Γ ⊆ Δ → Δ ⊢ A.
Proof.
  induction 1 as [Γ A HA|Γ A B _ IH|Γ A B _ IH1 _ IH2|Γ A B _ IH1 _ IH2
                 |Γ A B _ IH|Γ A B _ IH|Γ A B _ IH|Γ A B _ IH
                 |Γ A B C _ IH1 _ IH2 _ IH3]; intros Δ Hsub.
  - apply derives_hyp. by apply Hsub.
  - apply derives_imp_intro, IH. by apply list_subseteq_skip.
  - apply derives_imp_elim with A; auto.
  - apply derives_and_intro; auto.
  - apply derives_and_elim_l with B; auto.
  - apply derives_and_elim_r with A; auto.
  - apply derives_or_intro_l; auto.
  - apply derives_or_intro_r; auto.
  - apply derives_or_elim with A B; [auto | apply IH2 | apply IH3];
      by apply list_subseteq_skip.
Qed.

Lemma derives_cut Δ A : Δ ⊢ A → ∀ Γ, (∀ B, B ∈ Δ → Γ ⊢ B) → Γ ⊢ A.
Proof.
  assert (∀ Γ Θ X, (∀ B, B ∈ Θ → Γ ⊢ B) → ∀ B, B ∈ X :: Θ → X :: Γ ⊢ B) as Hext.
  { intros Γ Θ X HΘ B HB. apply elem_of_cons in HB as [->|HB].
    - apply derives_hyp. left.
    - apply derives_weaken with Γ; [by apply HΘ | by apply list_subseteq_cons]. }
  induction 1 as [Δ A HA|Δ A B _ IH|Δ A B _ IH1 _ IH2|Δ A B _ IH1 _ IH2
                 |Δ A B _ IH|Δ A B _ IH|Δ A B _ IH|Δ A B _ IH
                 |Δ A B C _ IH1 _ IH2 _ IH3]; intros Γ HΓ.
  - by apply HΓ.
  - apply derives_imp_intro, IH. by apply Hext.
  - apply derives_imp_elim with A; auto.
  - apply derives_and_intro; auto.
  - apply derives_and_elim_l with B; auto.
  - apply derives_and_elim_r with A; auto.
  - apply derives_or_intro_l; auto.
  - apply derives_or_intro_r; auto.
  - apply derives_or_elim with A B; [auto | apply IH2 | apply IH3];
      by apply Hext.
Qed.

Lemma derives_perm Γ Δ A : Γ ≡ₚ Δ → Γ ⊢ A → Δ ⊢ A.
Proof.
  intros Hp HA. apply derives_weaken with Γ; [exact HA|].
  intros B HB. by rewrite <- Hp.
Qed.

(** Step 0 only replaces conjunctions by their two parts. *)
Lemma break_open_derivable givens B : B ∈ break_open givens → givens ⊢ B.
Proof.
  unfold break_open. rewrite elem_of_app, list_elem_of_filter.
  intros [[_ HB]|HB]; [by apply derives_hyp|].
  apply list_elem_of_In, in_flat_map in HB as (g & Hg & HB).
  apply list_elem_of_In, list_elem_of_filter in Hg as [Htag Hg].
  apply tag_and in Htag as (x & y & ->). apply list_elem_of_In in HB.
  simpl in HB. apply elem_of_cons in HB as [->|HB].
  - apply derives_and_elim_l with y. by apply derives_hyp.
  - apply list_elem_of_singleton in HB as ->.
    apply derives_and_elim_r with x. by apply derives_hyp.
Qed.

(** ** Soundness of the rules *)

Section Soundness.
Variable rec : Tree → list Tree → Z → result bool.
Hypothesis rec_total : ∀ t g e, total (rec t g e).
Variable energy : Z.
Hypothesis rec_sound :
  ∀ t g e, (e < energy)%Z → rec t g e = Ret true → g ⊢ t.

Lemma easies_sound tree givens :
  easies rec tree givens (energy - 1) = Ret true → givens ⊢ tree.
Proof.
  assert (energy - 1 < energy)%Z as Hlt by lia.
  destruct tree as [c|x y|lft rht|hypo conc].
  - rewrite easies_atom_true by done. apply derives_hyp.
  - rewrite easies_and_true by done. intros [Hx Hy].
    apply rec_sound in Hx, Hy; try done.
    apply derives_and_intro; [exact Hx|].
    apply derives_cut with (givens ++ [x]); [exact Hy|].
    intros B HB. apply elem_of_app in HB as [HB|HB].
    + by apply derives_hyp.
    + by apply list_elem_of_singleton in HB as ->.
  - rewrite easies_or_true by done. intros [H|H]; apply rec_sound in H; try done.
    + by apply derives_or_intro_l.
    + by apply derives_or_intro_r.
  - rewrite easies_imp_true by done. intros H. apply rec_sound in H; [|done].
    by apply derives_imp_intro.
Qed.

Lemma slice_sound tree givens :
  slice rec tree givens energy = Ret true → givens ⊢ tree.
Proof.
  rewrite slice_true by done. intros (hypo & Hg & H).
  apply rec_sound in H; [|unfold slice_charge; case_decide; lia].
  apply derives_imp_elim with hypo; [by apply derives_hyp | exact H].
Qed.

Lemma split_sound tree givens :
  (0 < energy)%Z → split rec tree givens energy = Ret true → givens ⊢ tree.
Proof.
  intros Hpos. rewrite split_true by done.
  intros (i & lft & rht & cl & cr & Hg & _ & _ & Hl & Hr).
  apply rec_sound in Hl, Hr; try by apply allocated_energy_lt.
  assert (delete i givens ⊆ givens) as Hsub.
  { apply sublist_subseteq, sublist_delete. }
  apply derives_or_elim with lft rht.
  - apply derives_hyp. by apply list_elem_of_lookup_2 in Hg.
  - apply derives_weaken with (lft :: delete i givens);
      [exact Hl | by apply list_subseteq_skip].
  - apply derives_weaken with (rht :: delete i givens);
      [exact Hr | by apply list_subseteq_skip].
Qed.

Lemma can_prove_body_sound tree givens :
  can_prove_body rec tree givens energy = Ret true → givens ⊢ tree.
Proof.
  intros H. destruct (decide (0 < energy)%Z) as [Hpos|Hneg].
  2:{ unfold can_prove_body in H. case_decide; [discriminate | lia]. }
  destruct (sort_givens_total tree (break_open givens)) as [gs Hgs].
  rewrite (can_prove_body_true rec rec_total tree givens energy gs) in H by done.
  apply derives_cut with gs.
  - destruct H as [H|[H|H]];
      [by apply easies_sound | by apply slice_sound | by apply split_sound].
  - intros B HB. apply break_open_derivable.
    apply sort_givens_perm in Hgs. by rewrite <- Hgs.
Qed.
End Soundness.

Lemma can_prove_derives energy :
  ∀ tree givens, can_prove tree givens energy = Ret true → givens ⊢ tree.
Proof.
  induction (Z.lt_wf 0 energy) as [energy _ IH]. intros tree givens H.
  rewrite can_prove_eq in H.
  apply (can_prove_body_sound can_prove can_prove_total energy); [|exact H].
  intros t g e He Ht. apply (IH e); [|exact Ht].
  apply can_prove_true_pos in Ht. lia.
Qed.

(** ** More energy never loses a proof *)

Lemma can_prove_mono energy :
  ∀ energy' tree givens,
    (energy ≤ energy')%Z →
    can_prove tree givens energy = Ret true →
    can_prove tree givens energy' = Ret true.
Proof.
  induction (Z.lt_wf 0 energy) as [energy _ IH].
  intros energy' tree givens Hle H.
  assert (∀ e e' t g, (e < energy)%Z → (e ≤ e')%Z →
            can_prove t g e = Ret true → can_prove t g e' = Ret true) as Hrec.
  { intros e e' t g He Hee Ht. apply (IH e); [|done..].
    apply can_prove_true_pos in Ht. lia. }
  clear IH. pose proof (can_prove_true_pos _ _ _ H) as Hpos.
  rewrite can_prove_eq in H |- *.
  destruct (sort_givens_total tree (break_open givens)) as [gs Hgs].
  rewrite (can_prove_body_true _ can_prove_total tree givens energy gs) in H
    by done.
  rewrite (can_prove_body_true _ can_prove_total tree givens energy' gs)
    by (done || lia).
  destruct H as [H|[H|H]].
  - left. destruct tree as [c|x y|lft rht|hypo conc].
    + rewrite easies_atom_true in H |- * by apply can_prove_total. exact H.
    + rewrite easies_and_true in H |- * by apply can_prove_total.
      destruct H as [Hx Hy].
      split; eapply (Hrec (energy - 1)%Z); try eassumption; lia.
    + rewrite easies_or_true in H |- * by apply can_prove_total.
      destruct H as [H|H]; [left | right];
        eapply (Hrec (energy - 1)%Z); try eassumption; lia.
    + rewrite easies_imp_true in H |- * by apply can_prove_total.
      eapply (Hrec (energy - 1)%Z); try eassumption; lia.
  - right. left. rewrite slice_true in H |- * by apply can_prove_total.
    destruct H as (hypo & Hg & H). exists hypo. split; [exact Hg|].
    eapply Hrec; [| |exact H]; unfold slice_charge; case_decide; lia.
  - right. right. rewrite split_true in H |- * by (apply can_prove_total || lia).
    destruct H as (i & lft & rht & cl & cr & Hg & Hcl & Hcr & Hl & Hr).
    exists i, lft, rht, cl, cr. repeat split; try done.
    + eapply Hrec; [| |exact Hl];
        [by apply allocated_energy_lt | by apply allocated_energy_mono].
    + eapply Hrec; [| |exact Hr];
        [by apply allocated_energy_lt | by apply allocated_energy_mono].
Qed.

(** ** The reference derivability is intuitionistic *)

Lemma world_le_refl w : world_le w w.
Proof. by intros ?. Qed.

Lemma world_le_trans w1 w2 w3 : world_le w1 w2 → world_le w2 w3 → world_le w1 w3.
Proof. unfold world_le. auto. Qed.

Lemma forces_persistent val A :
  persistent val → ∀ w w', world_le w w' → forces val w A → forces val w' A.
Proof.
  intros Hval. induction A as [c|A IHA B IHB|A IHA B IHB|A IHA B IHB];
    intros w w' Hle; simpl.
  - by apply Hval.
  - intros [HA HB]. split; eauto.
  - intros [HA|HB]; eauto.
  - intros HAB w'' Hle'. apply HAB. by apply world_le_trans with w'.
Qed.

(** Kripke soundness: what is derivable is forced wherever the context is. *)
Lemma derives_forces val Γ A :
  persistent val → Γ ⊢ A → ∀ w, (∀ B, B ∈ Γ → forces val w B) → forces val w A.
Proof.
  intros Hval.
  assert (∀ Γ X w w', world_le w w' → forces val w' X →
            (∀ B, B ∈ Γ → forces val w B) →
            ∀ B, B ∈ X :: Γ → forces val w' B) as Hext.
  { intros Γ' X w w' Hle HX HΓ B HB. apply elem_of_cons in HB as [->|HB].
    - exact HX.
    - apply forces_persistent with w; auto. }
  induction 1 as [Γ A HA|Γ A B _ IH|Γ A B _ IH1 _ IH2|Γ A B _ IH1 _ IH2
                 |Γ A B _ IH|Γ A B _ IH|Γ A B _ IH|Γ A B _ IH
                 |Γ A B C _ IH1 _ IH2 _ IH3]; intros w HΓ.
  - by apply HΓ.
  - simpl. intros w' Hle HA. apply IH. by apply Hext with w.
  - apply (IH1 w HΓ w); [apply world_le_refl | by apply IH2].
  - simpl. split; auto.
  - by apply (IH w HΓ).
  - by apply (IH w HΓ).
  - simpl. left. auto.
  - simpl. right. auto.
  - destruct (IH1 w HΓ) as [HA|HB].
    + apply IH2. apply Hext with w; [apply world_le_refl | done..].
    + apply IH3. apply Hext with w; [apply world_le_refl | done..].
Qed.

(** Double-negation elimination is not derivable: the reference system is
    not classical logic. *)
Lemma dne_not_derivable (x f : string) :
  x ≠ f → ¬ ([Imp (Imp (Atom x) (Atom f)) (Atom f)] ⊢ Atom x).
Proof.
  intros Hne Hd.
  set (val := fun (c : string) (w : bool) => c = x ∧ w = true).
  assert (persistent val) as Hval.
  { intros c w w' Hle [-> Hw]. split; [done | by apply Hle]. }
  pose proof (derives_forces val _ _ Hval Hd false) as H.
  assert (forces val false (Atom x)) as [_ Hfalse]; [|discriminate].
  apply H. intros B HB. apply list_elem_of_singleton in HB as ->.
  simpl. intros w' _ Hxf.
  destruct (Hxf true) as [Hfx _]; [by intros _ | done | by destruct Hne].
Qed.

(** * The claims *)










(** C6, as stated, fails: on two empty profiles [count_overlap] divides by
    the zero key count and raises; it yields no value. *)
Lemma count_overlap_empty_raises :
  count_overlap ∅ ∅ = Raise ZeroDivisionError ∧
  ¬ ∃ c, count_overlap ∅ ∅ = Ret c.
Proof.
  assert (count_overlap ∅ ∅ = Raise ZeroDivisionError) as H
    by (by apply count_overlap_raises).
  split; [exact H|]. intros [c Hc]. congruence.
Qed.

(** C6, amended.  Degenerate overlap: [count_overlap] applied to two empty
    atom profiles (empty key union) is not defined, it fails with a
    division-by-zero error; it is defined, and returns a number, exactly
    when at least one of the two profiles is nonempty. *)
Theorem count_overlap_defined (aa bb : gmap string Q) :
  (count_overlap aa bb = Raise ZeroDivisionError ↔ aa = ∅ ∧ bb = ∅) ∧
  ((∃ c, count_overlap aa bb = Ret c) ↔ aa ≠ ∅ ∨ bb ≠ ∅).
Proof.
  split; [apply count_overlap_raises|]. split.
  - intros [c Hc]. destruct (decide (aa = ∅)) as [->|]; [|by left].
    destruct (decide (bb = ∅)) as [->|]; [|by right].
    assert (count_overlap (∅ : gmap string Q) ∅ = Raise ZeroDivisionError)
      by (by apply count_overlap_raises).
    congruence.
  - apply count_overlap_total.
Qed.

Lemma count_overlap_defined_witness :
  (∃ c, count_overlap (atom_counts (Atom "a")) ∅ = Ret c) ∧
  count_overlap ∅ ∅ = Raise ZeroDivisionError.
Proof.
  split.
  - apply (proj2 (count_overlap_defined (atom_counts (Atom "a")) ∅)).
    left. apply atom_counts_nonempty.
  - by apply (proj1 (count_overlap_defined ∅ ∅)).
Defined.







(** * Further properties of the code *)

(** The judgements of the trace in the module's docstring: the orders in
    which its lines for the goals [(a+b)->(b&c)], [b&c], [b], [a] and the
    two for [c] list their hypotheses are the orders that step 0 and step 1
    compute. *)
Lemma docstring_judgements :
  let ab := Or (Atom "a") (Atom "b") in
  let a_b := Imp (Atom "a") (Atom "b") in
  let dc := And (Atom "d") (Atom "c") in
  let dcec := Or dc (And (Atom "e") (Atom "c")) in
  sort_givens (Imp ab (And (Atom "b") (Atom "c"))) (break_open [dcec; a_b])
    = Ret [a_b; dcec] ∧
  sort_givens (And (Atom "b") (Atom "c")) (break_open [ab; a_b; dcec])
    = Ret [dcec; a_b; ab] ∧
  sort_givens (Atom "b") (break_open [dcec; a_b; ab])
    = Ret [a_b; ab; dcec] ∧
  sort_givens (Atom "a") (break_open [a_b; ab; dcec])
    = Ret [ab; a_b; dcec] ∧
  sort_givens (Atom "c") (break_open [dcec; a_b; ab; Atom "b"])
    = Ret [dcec; Atom "b"; ab; a_b] ∧
  sort_givens (Atom "c") (break_open [dc; Atom "b"; ab; a_b])
    = Ret [Atom "c"; Atom "d"; a_b; ab; Atom "b"].
Proof. by vm_compute. Qed.

(** Structural match is exact: [matches] holds of two trees exactly when
    they are the same tree; in particular it is reflexive, and it does not
    identify [a & b] with [b & a]. *)
Theorem matches_exact :
  (∀ self pattern, matches self pattern = true ↔ self = pattern) ∧
  (∀ f, matches f f = true) ∧
  matches (And (Atom "a") (Atom "b")) (And (Atom "b") (Atom "a")) = false.
Proof. split; [exact matches_eq|]. split; [exact matches_refl | reflexivity]. Qed.





(** A repeated hypothesis can cost a proof: [a->b] is proved from itself
    with energy 3, and no longer when the hypothesis is listed twice, which
    makes two slice candidates and raises the charge. *)
Theorem repeated_hypothesis_costs :
  can_prove (Imp (Atom "a") (Atom "b")) [Imp (Atom "a") (Atom "b")] 3
    = Ret true ∧
  can_prove (Imp (Atom "a") (Atom "b"))
            [Imp (Atom "a") (Atom "b"); Imp (Atom "a") (Atom "b")] 3
    = Ret false.
Proof. split; vm_compute; reflexivity. Qed.



(** The second example of the main loop, [a->F] from [((a->F)->F)->F], is
    proved with the default energy. *)
Theorem example_triple_negation :
  run_example ("a->F", ["((a->F)->F)->F"]) = Ret true.
Proof. vm_compute. reflexivity. Qed.

(** The budget can hide a proof: [b] follows from [a] and [a->b], the
    search finds it with energy 2 and misses it with energy 1. *)
Theorem budget_masks_proof :
  [Atom "a"; Imp (Atom "a") (Atom "b")] ⊢ Atom "b" ∧
  can_prove (Atom "b") [Atom "a"; Imp (Atom "a") (Atom "b")] 2 = Ret true ∧
  can_prove (Atom "b") [Atom "a"; Imp (Atom "a") (Atom "b")] 1 = Ret false.
Proof.
  assert (can_prove (Atom "b") [Atom "a"; Imp (Atom "a") (Atom "b")] 2
          = Ret true) as H by (vm_compute; reflexivity).
  split; [by apply can_prove_derives in H|]. split; [exact H|].
  vm_compute. reflexivity.
Qed.

(** Breaking open is the identity on a list without conjunctions. *)
Theorem break_open_flat (givens : list Tree) :
  Forall (fun g => tag g ≠ "&") givens → break_open givens = givens.
Proof.
  intros Hflat. unfold break_open.
  assert (filter (fun g => tag g = "&") givens = []) as ->.
  { induction Hflat as [|g l Hg _ IH]; [done|].
    by rewrite filter_cons_False. }
  simpl. rewrite app_nil_r.
  induction Hflat as [|g l Hg _ IH]; [done|].
  rewrite filter_cons_True by done. by rewrite IH.
Qed.

Lemma break_open_flat_witness :
  Forall (fun g => tag g ≠ "&") [Atom "a"; Or (Atom "a") (Atom "b")] ∧
  break_open [Atom "a"; Or (Atom "a") (Atom "b")]
    = [Atom "a"; Or (Atom "a") (Atom "b")].
Proof.
  assert (Forall (fun g => tag g ≠ "&") [Atom "a"; Or (Atom "a") (Atom "b")])
    as Hflat by (repeat constructor; discriminate).
  split; [exact Hflat | exact (break_open_flat _ Hflat)].
Defined.

(** The idealisation of the scores is harmless on the examples: with
    binary64 scores the three examples of the main loop get the same
    answers, and the judgements of the docstring the same orders. *)
Theorem binary64_examples_agree :
  map Binary64.run_example example_problems = map run_example example_problems ∧
  map run_example example_problems = [Ret true; Ret true; Ret false] ∧
  let ab := Or (Atom "a") (Atom "b") in
  let a_b := Imp (Atom "a") (Atom "b") in
  let dc := And (Atom "d") (Atom "c") in
  let dcec := Or dc (And (Atom "e") (Atom "c")) in
  Binary64.sort_givens (Imp ab (And (Atom "b") (Atom "c")))
      (break_open [dcec; a_b]) = Ret [a_b; dcec] ∧
  Binary64.sort_givens (And (Atom "b") (Atom "c")) (break_open [ab; a_b; dcec])
    = Ret [dcec; a_b; ab] ∧
  Binary64.sort_givens (Atom "b") (break_open [dcec; a_b; ab])
    = Ret [a_b; ab; dcec] ∧
  Binary64.sort_givens (Atom "a") (break_open [a_b; ab; dcec])
    = Ret [ab; a_b; dcec] ∧
  Binary64.sort_givens (Atom "c") (break_open [dcec; a_b; ab; Atom "b"])
    = Ret [dcec; Atom "b"; ab; a_b] ∧
  Binary64.sort_givens (Atom "c") (break_open [dc; Atom "b"; ab; a_b])
    = Ret [Atom "c"; Atom "d"; a_b; ab; Atom "b"].
Proof. by vm_compute. Qed.

(** * The search under any heuristic *)

Lemma can_prove_upto_is_with n tree givens energy :
  can_prove_upto n tree givens energy
  = can_prove_upto_with sort_givens case_energy n tree givens energy.
Proof.
  revert tree givens energy. induction n as [|n IH]; intros; [done|].
  simpl.
  rewrite (can_prove_body_ext _
             (can_prove_upto_with sort_givens case_energy n)) by (intros; apply IH).
  reflexivity.
Qed.

Section AnyHeuristic.
Variable sort : Tree → list Tree → result (list Tree).
Variable budget : Tree → Tree → Z → result Z.
Hypothesis sort_ok : rearranges sort.
Hypothesis budget_ok : thirds budget.

Lemma budget_total tree b energy : total (budget tree b energy).
Proof. destruct (budget_ok tree b) as (k & _ & Hk). rewrite Hk. by eexists. Qed.

Lemma budget_lt tree b energy en :
  (0 < energy)%Z → budget tree b energy = Ret en → (en < energy)%Z.
Proof.
  intros Hpos. destruct (budget_ok tree b) as (k & Hk12 & Hk).
  rewrite Hk. intros [= <-]. apply Z.quot_lt_upper_bound; lia.
Qed.

Lemma budget_mono tree b e e' en en' :
  (e ≤ e')%Z → budget tree b e = Ret en → budget tree b e' = Ret en' →
  (en ≤ en')%Z.
Proof.
  intros Hle. destruct (budget_ok tree b) as (k & Hk12 & Hk).
  rewrite !Hk. intros [= <-] [= <-]. apply Z.quot_le_mono; [lia|].
  destruct Hk12 as [-> | ->]; lia.
Qed.

Lemma split_with_ext rec1 rec2 tree givens energy :
  (∀ t g e, (e < energy)%Z → rec1 t g e = rec2 t g e) → (0 < energy)%Z →
  split_with budget rec1 tree givens energy
  = split_with budget rec2 tree givens energy.
Proof.
  intros H Hpos. unfold split_with. apply first_success_ext. intros ig _.
  apply bind_ext. intros lr _. apply all_success_ext. intros b _.
  apply bind_ext. intros en Hen. apply H. by apply budget_lt in Hen.
Qed.

Lemma can_prove_body_with_ext rec1 rec2 tree givens energy :
  (∀ t g e, energy_call e energy → rec1 t g e = rec2 t g e) →
  can_prove_body_with sort budget rec1 tree givens energy
  = can_prove_body_with sort budget rec2 tree givens energy.
Proof.
  intros H. unfold can_prove_body_with. case_decide as Hpos; [done|].
  assert (∀ t g e, (e < energy)%Z → rec1 t g e = rec2 t g e) as H'
    by (intros; apply H; split; lia).
  apply bind_ext. intros gs _.
  rewrite (easies_ext rec1 rec2 tree gs) by (intros; apply H'; lia).
  rewrite (slice_ext rec1 rec2 tree gs)
    by (intros; apply H'; unfold slice_charge; case_decide; lia).
  rewrite (split_with_ext rec1 rec2 tree gs) by (done || lia).
  reflexivity.
Qed.

Lemma can_prove_upto_with_stable n tree givens energy :
  (Z.to_nat energy ≤ n)%nat →
  can_prove_upto_with sort budget n tree givens energy
  = can_prove_with sort budget tree givens energy.
Proof.
  unfold can_prove_with. revert tree givens energy.
  induction (lt_wf n) as [n _ IH]. intros tree givens energy Hn.
  destruct n as [|n], (Z.to_nat energy) as [|m] eqn:Hm; try lia; try done.
  - simpl. unfold can_prove_body_with. case_decide; [done | lia].
  - simpl. apply can_prove_body_with_ext. intros t g e [_ He].
    rewrite (IH n) by lia. rewrite (IH m) by lia. reflexivity.
Qed.

Lemma can_prove_with_eq tree givens energy :
  can_prove_with sort budget tree givens energy
  = can_prove_body_with sort budget (can_prove_with sort budget)
      tree givens energy.
Proof.
  unfold can_prove_with at 1. destruct (Z.to_nat energy) as [|m] eqn:Hm; simpl.
  - unfold can_prove_body_with. case_decide; [done | lia].
  - apply can_prove_body_with_ext. intros t g e [_ He].
    apply can_prove_upto_with_stable. lia.
Qed.

Lemma split_with_attempt_total rec tree givens energy ig :
  (∀ t g e, total (rec t g e)) →
  ig ∈ split_candidates givens →
  total (lr ← unpack2 (kids ig.2);
         all_success
           (fun b => en ← budget tree b energy;
                     rec tree (b :: take ig.1 givens ++ drop (S ig.1) givens) en)
           [lr.1; lr.2]).
Proof.
  intros Hrec. destruct ig as [i g]. intros Hg.
  apply split_candidates_spec in Hg as [_ (lft & rht & ->)].
  cbn [kids unpack2 mbind result_bind]. apply all_success_total.
  intros b _. destruct (budget_total tree b energy) as [en ->]. apply Hrec.
Qed.

Lemma split_with_total rec tree givens energy :
  (∀ t g e, total (rec t g e)) →
  total (split_with budget rec tree givens energy).
Proof.
  intros Hrec. unfold split_with. apply first_success_total. intros ig Hig.
  by apply split_with_attempt_total.
Qed.

Lemma can_prove_body_with_total rec tree givens energy :
  (∀ t g e, total (rec t g e)) →
  total (can_prove_body_with sort budget rec tree givens energy).
Proof.
  intros Hrec. unfold can_prove_body_with. case_decide; [by eexists|].
  destruct (sort_ok tree (break_open givens)) as (gs & -> & _). simpl.
  destruct (easies_total rec Hrec tree gs (energy - 1)) as [[] ->]; simpl;
    [by eexists|].
  destruct (slice_total rec Hrec tree gs energy) as [[] ->]; simpl;
    [by eexists|].
  destruct (split_with_total rec tree gs energy Hrec) as [[] ->]; by eexists.
Qed.

Lemma can_prove_with_total tree givens energy :
  total (can_prove_with sort budget tree givens energy).
Proof.
  unfold can_prove_with. generalize (Z.to_nat energy) as n.
  intros n. revert tree givens energy. induction n as [|n IH]; intros; simpl.
  - by eexists.
  - by apply can_prove_body_with_total.
Qed.

Lemma split_with_true rec tree givens energy :
  (∀ t g e, total (rec t g e)) →
  split_with budget rec tree givens energy = Ret true ↔
  ∃ i lft rht el er,
    givens !! i = Some (Or lft rht) ∧
    budget tree lft energy = Ret el ∧
    budget tree rht energy = Ret er ∧
    rec tree (lft :: delete i givens) el = Ret true ∧
    rec tree (rht :: delete i givens) er = Ret true.
Proof.
  intros Hrec. unfold split_with.
  rewrite first_success_true by (intros; by apply split_with_attempt_total).
  split.
  - intros ([i g] & Hg & Hall).
    apply split_candidates_spec in Hg as [Hg (lft & rht & ->)].
    cbn [kids unpack2 mbind result_bind fst snd] in Hall.
    rewrite all_success_true in Hall.
    destruct (budget_total tree lft energy) as [el Hel].
    destruct (budget_total tree rht energy) as [er Her].
    exists i, lft, rht, el, er. rewrite delete_take_drop.
    pose proof (Hall lft ltac:(left)) as Hl.
    pose proof (Hall rht ltac:(right; left)) as Hr.
    rewrite Hel in Hl. rewrite Her in Hr. done.
  - intros (i & lft & rht & el & er & Hg & Hel & Her & Hl & Hr).
    exists (i, Or lft rht). split.
    { apply split_candidates_spec. split; [exact Hg | by exists lft, rht]. }
    cbn [kids unpack2 mbind result_bind fst snd].
    rewrite all_success_true. rewrite delete_take_drop in Hl, Hr.
    intros b Hb. apply elem_of_cons in Hb as [->|Hb].
    + by rewrite Hel.
    + apply list_elem_of_singleton in Hb as ->. by rewrite Her.
Qed.

Lemma can_prove_with_true tree givens energy gs :
  (0 < energy)%Z → sort tree (break_open givens) = Ret gs →
  can_prove_with sort budget tree givens energy = Ret true ↔
  easies (can_prove_with sort budget) tree gs (energy - 1) = Ret true ∨
  slice (can_prove_with sort budget) tree gs energy = Ret true ∨
  split_with budget (can_prove_with sort budget) tree gs energy = Ret true.
Proof.
  intros Hpos Hgs. rewrite can_prove_with_eq at 1.
  unfold can_prove_body_with. case_decide; [lia|]. rewrite Hgs. simpl.
  destruct (easies_total _ can_prove_with_total tree gs (energy - 1))
    as [[] ->]; simpl; [intuition congruence|].
  destruct (slice_total _ can_prove_with_total tree gs energy)
    as [[] ->]; simpl; [intuition congruence|].
  destruct (split_with_total _ tree gs energy can_prove_with_total)
    as [[] ->]; simpl; intuition congruence.
Qed.

Lemma can_prove_with_true_pos tree givens energy :
  can_prove_with sort budget tree givens energy = Ret true → (0 < energy)%Z.
Proof.
  rewrite can_prove_with_eq. unfold can_prove_body_with.
  case_decide; [discriminate | lia].
Qed.

Lemma can_prove_with_derives energy :
  ∀ tree givens,
    can_prove_with sort budget tree givens energy = Ret true → givens ⊢ tree.
Proof.
  induction (energy_call_wf energy) as [energy _ IH]. intros tree givens H.
  pose proof (can_prove_with_true_pos _ _ _ H) as Hpos.
  assert (∀ t g e, (e < energy)%Z →
            can_prove_with sort budget t g e = Ret true → g ⊢ t) as Hrec.
  { intros t g e He. apply IH. by split. }
  destruct (sort_ok tree (break_open givens)) as (gs & Hgs & Hperm).
  rewrite (can_prove_with_true tree givens energy gs) in H by done.
  apply derives_cut with gs.
  - destruct H as [H|[H|H]].
    + by apply (easies_sound _ can_prove_with_total energy).
    + by apply (slice_sound _ can_prove_with_total energy).
    + apply split_with_true in H; [|apply can_prove_with_total].
      destruct H as (i & lft & rht & el & er & Hg & Hel & Her & Hl & Hr).
      apply Hrec in Hl, Hr; try by eapply budget_lt.
      assert (delete i gs ⊆ gs) as Hsub by apply sublist_subseteq, sublist_delete.
      apply derives_or_elim with lft rht.
      * apply derives_hyp. by apply list_elem_of_lookup_2 in Hg.
      * apply derives_weaken with (lft :: delete i gs);
          [exact Hl | by apply list_subseteq_skip].
      * apply derives_weaken with (rht :: delete i gs);
          [exact Hr | by apply list_subseteq_skip].
  - intros B HB. apply break_open_derivable. by rewrite <- Hperm.
Qed.

Lemma can_prove_with_mono energy :
  ∀ energy' tree givens,
    (energy ≤ energy')%Z →
    can_prove_with sort budget tree givens energy = Ret true →
    can_prove_with sort budget tree givens energy' = Ret true.
Proof.
  induction (energy_call_wf energy) as [energy _ IH].
  intros energy' tree givens Hle H.
  pose proof (can_prove_with_true_pos _ _ _ H) as Hpos.
  assert (∀ e e' t g, (e < energy)%Z → (e ≤ e')%Z →
            can_prove_with sort budget t g e = Ret true →
            can_prove_with sort budget t g e' = Ret true) as Hrec.
  { intros e e' t g He Hee. apply IH; [by split | done]. }
  clear IH.
  destruct (sort_ok tree (break_open givens)) as (gs & Hgs & _).
  rewrite (can_prove_with_true tree givens energy gs) in H by done.
  rewrite (can_prove_with_true tree givens energy' gs) by (done || lia).
  destruct H as [H|[H|H]].
  - left. destruct tree as [c|x y|lft rht|hypo conc].
    + rewrite easies_atom_true in H |- * by apply can_prove_with_total. exact H.
    + rewrite easies_and_true in H |- * by apply can_prove_with_total.
      destruct H as [Hx Hy].
      split; eapply (Hrec (energy - 1)%Z); try eassumption; lia.
    + rewrite easies_or_true in H |- * by apply can_prove_with_total.
      destruct H as [H|H]; [left | right];
        eapply (Hrec (energy - 1)%Z); try eassumption; lia.
    + rewrite easies_imp_true in H |- * by apply can_prove_with_total.
      eapply (Hrec (energy - 1)%Z); try eassumption; lia.
  - right. left. rewrite slice_true in H |- * by apply can_prove_with_total.
    destruct H as (hypo & Hg & H). exists hypo. split; [exact Hg|].
    eapply Hrec; [| |exact H]; unfold slice_charge; case_decide; lia.
  - right. right. rewrite split_with_true in H |- * by apply can_prove_with_total.
    destruct H as (i & lft & rht & el & er & Hg & Hel & Her & Hl & Hr).
    destruct (budget_total tree lft energy') as [el' Hel'].
    destruct (budget_total tree rht energy') as [er' Her'].
    exists i, lft, rht, el', er'. repeat split; try done.
    + eapply Hrec; [| |exact Hl]; [by eapply budget_lt | by eapply budget_mono].
    + eapply Hrec; [| |exact Hr]; [by eapply budget_lt | by eapply budget_mono].
Qed.

Lemma break_open_perm givens givens' :
  givens ≡ₚ givens' → break_open givens ≡ₚ break_open givens'.
Proof.
  intros Hp. unfold break_open. apply Permutation_app.
  - by apply filter_Permutation.
  - by apply Permutation_flat_map, filter_Permutation.
Qed.

Lemma slice_candidates_perm tree givens givens' :
  givens ≡ₚ givens' →
  slice_candidates tree givens ≡ₚ slice_candidates tree givens'.
Proof. intros Hp. unfold slice_candidates. by apply filter_Permutation. Qed.

Lemma lookup_perm_delete {A : Type} (l l' : list A) i x :
  l ≡ₚ l' → l !! i = Some x →
  ∃ j, l' !! j = Some x ∧ delete i l ≡ₚ delete j l'.
Proof.
  intros Hp Hi.
  assert (x ∈ l') as Hx by (rewrite <- Hp; by eapply list_elem_of_lookup_2).
  apply list_elem_of_lookup in Hx as [j Hj]. exists j. split; [exact Hj|].
  apply (Permutation_cons_inv (a := x)).
  by rewrite <- (delete_Permutation l i x), <- (delete_Permutation l' j x).
Qed.

Lemma can_prove_with_perm_true energy :
  ∀ tree givens givens',
    givens ≡ₚ givens' →
    can_prove_with sort budget tree givens energy = Ret true →
    can_prove_with sort budget tree givens' energy = Ret true.
Proof.
  induction (energy_call_wf energy) as [energy _ IH].
  intros tree givens givens' Hperm H.
  pose proof (can_prove_with_true_pos _ _ _ H) as Hpos.
  assert (∀ e t g g', (e < energy)%Z → g ≡ₚ g' →
            can_prove_with sort budget t g e = Ret true →
            can_prove_with sort budget t g' e = Ret true) as Hrec.
  { intros e t g g' He. apply IH. by split. }
  clear IH.
  destruct (sort_ok tree (break_open givens)) as (gs & Hgs & Hp).
  destruct (sort_ok tree (break_open givens')) as (gs' & Hgs' & Hp').
  assert (gs ≡ₚ gs') as Hgg.
  { rewrite Hp, Hp'. by apply break_open_perm. }
  rewrite (can_prove_with_true tree givens energy gs) in H by done.
  rewrite (can_prove_with_true tree givens' energy gs') by done.
  destruct H as [H|[H|H]].
  - left. destruct tree as [c|x y|lft rht|hypo conc].
    + rewrite easies_atom_true in H |- * by apply can_prove_with_total.
      by rewrite <- Hgg.
    + rewrite easies_and_true in H |- * by apply can_prove_with_total.
      destruct H as [Hx Hy]. split.
      * eapply (Hrec (energy - 1)%Z); [lia | exact Hgg | exact Hx].
      * eapply (Hrec (energy - 1)%Z); [lia | | exact Hy].
        by apply Permutation_app.
    + rewrite easies_or_true in H |- * by apply can_prove_with_total.
      destruct H as [H|H]; [left | right];
        (eapply (Hrec (energy - 1)%Z); [lia | exact Hgg | exact H]).
    + rewrite easies_imp_true in H |- * by apply can_prove_with_total.
      eapply (Hrec (energy - 1)%Z); [lia | | exact H]. by constructor.
  - right. left. rewrite slice_true in H |- * by apply can_prove_with_total.
    destruct H as (hypo & Hg & H). exists hypo.
    split; [by rewrite <- Hgg|].
    rewrite <- (Permutation_length (slice_candidates_perm tree gs gs' Hgg)).
    eapply Hrec; [| exact Hgg | exact H].
    unfold slice_charge; case_decide; lia.
  - right. right. rewrite split_with_true in H |- * by apply can_prove_with_total.
    destruct H as (i & lft & rht & el & er & Hg & Hel & Her & Hl & Hr).
    destruct (lookup_perm_delete gs gs' i _ Hgg Hg) as (j & Hj & Hdel).
    exists j, lft, rht, el, er. repeat split; try done.
    + eapply Hrec; [by eapply budget_lt | | exact Hl]. by constructor.
    + eapply Hrec; [by eapply budget_lt | | exact Hr]. by constructor.
Qed.

Lemma can_prove_with_perm tree givens givens' energy :
  givens ≡ₚ givens' →
  can_prove_with sort budget tree givens energy
  = can_prove_with sort budget tree givens' energy.
Proof.
  intros Hperm.
  destruct (can_prove_with_total tree givens energy) as [[] H].
  - rewrite H. symmetry. by apply can_prove_with_perm_true with givens.
  - destruct (can_prove_with_total tree givens' energy) as [[] H']; [|congruence].
    apply (can_prove_with_perm_true energy tree givens' givens) in H';
      [congruence | by symmetry].
Qed.
End AnyHeuristic.

Lemma can_prove_is_with tree givens energy :
  can_prove tree givens energy
  = can_prove_with sort_givens case_energy tree givens energy.
Proof. apply can_prove_upto_is_with. Qed.

Lemma sort_givens_rearranges : rearranges sort_givens.
Proof.
  intros tree givens. destruct (sort_givens_total tree givens) as [gs Hgs].
  exists gs. split; [exact Hgs | by apply sort_givens_perm in Hgs].
Qed.

Lemma case_energy_thirds : thirds case_energy.
Proof.
  intros tree b. destruct (count_overlap_atom_counts tree b) as [c Hc].
  unfold case_energy. rewrite Hc. simpl.
  destruct (Qlt_le_dec (3 # 4) c); [exists 2%Z | exists 1%Z];
    (split; [lia | done]).
Qed.

(** ** The binary64 heuristic is one *)

(** Scoring, sorting the pairs and looking the givens up again rearranges
    the givens, whatever the scores and the sort. *)
Lemma scored_sort_rearranges {S : Type} (score : Tree → result S)
    (srt : list (S * nat) → list (S * nat)) (givens : list Tree) :
  (∀ g, total (score g)) → (∀ l, srt l ≡ₚ l) →
  ∃ gs,
    (scored ← mapM (fun ig : nat * Tree => c ← score ig.2; mret (c, ig.1))
                   (imap pair givens);
     mapM (fun ci : S * nat => getitem givens ci.2) (srt scored)) = Ret gs ∧
    gs ≡ₚ givens.
Proof.
  intros Hscore Hsrt.
  set (f := fun ig : nat * Tree => score ig.2 ≫= (fun c => mret (c, ig.1))).
  destruct (mapM_total f (imap pair givens)) as [scored Hscored].
  { apply Forall_forall. intros ig _. unfold f.
    destruct (Hscore ig.2) as [c ->]. by eexists. }
  rewrite Hscored. simpl. apply mapM_Ret_Forall2 in Hscored.
  assert (snd <$> scored = seq 0 (length givens)) as Hsnd.
  { rewrite <- fst_imap_pair. apply Forall2_fmap_eq.
    eapply Forall2_impl; [exact Hscored|]. intros ig sc H. unfold f in H.
    inv_bind H. by injection H as <-. }
  assert (snd <$> srt scored ≡ₚ seq 0 (length givens)) as Hidx.
  { rewrite <- Hsnd. apply fmap_Permutation, Hsrt. }
  destruct (mapM_total (fun ci : S * nat => getitem givens ci.2) (srt scored))
    as [gs Hgs].
  { apply Forall_forall. intros ci Hci.
    assert (ci.2 ∈ seq 0 (length givens)) as Hin.
    { rewrite <- Hidx. by apply list_elem_of_fmap_2. }
    apply elem_of_seq in Hin.
    destruct (lookup_lt_is_Some_2 givens ci.2) as [g Hg]; [lia|].
    exists g. by apply getitem_Ret. }
  exists gs. split; [exact Hgs|]. apply mapM_Ret_Forall2 in Hgs.
  assert (gs = (fun i => default (Atom "") (givens !! i)) <$> (snd <$> srt scored))
    as ->.
  { rewrite <- list_fmap_compose, <- (list_fmap_id gs).
    apply Forall2_fmap_eq. eapply Forall2_impl; [exact Hgs|].
    intros ci g Hg. apply getitem_Ret in Hg. simpl. by rewrite Hg. }
  rewrite Hidx. by rewrite lookups_of_seq.
Qed.

Lemma binary64_accumulate_nonempty w aa cc :
  aa ≠ ∅ ∨ cc ≠ ∅ → Binary64.accumulate w aa cc ≠ ∅.
Proof.
  unfold Binary64.accumulate.
  apply (map_fold_weak_ind (fun r m => m ≠ ∅ ∨ cc ≠ ∅ → r ≠ ∅)).
  - intros [H|H]; [by destruct H | exact H].
  - intros k v m r _ _ _. apply insert_non_empty.
Qed.

Lemma binary64_atom_counts_nonempty tree : Binary64.atom_counts tree ≠ ∅.
Proof.
  induction tree as [c|x IHx y _|x IHx y _|x IHx y _];
    [simpl; apply insert_non_empty | ..];
    (change (Binary64.atom_counts ?t) with
       (let '(wa, wb) := Binary64.weights t in
        Binary64.accumulate wb (Binary64.atom_counts y)
          (Binary64.accumulate wa (Binary64.atom_counts x) ∅)) at 1;
     destruct (Binary64.weights _) as [wa wb];
     apply binary64_accumulate_nonempty; right;
     apply binary64_accumulate_nonempty; by left).
Qed.

Lemma binary64_count_overlap_total tree b :
  total (Binary64.count_overlap (Binary64.atom_counts tree)
                                (Binary64.atom_counts b)).
Proof.
  unfold Binary64.count_overlap. case_decide as Hsz; [|by eexists].
  apply size_empty_inv, leibniz_equiv in Hsz.
  apply empty_union_L in Hsz as [Hd _]. apply dom_empty_inv_L in Hd.
  by apply binary64_atom_counts_nonempty in Hd.
Qed.

Lemma binary64_sort_givens_rearranges : rearranges Binary64.sort_givens.
Proof.
  intros tree givens. unfold Binary64.sort_givens.
  apply (scored_sort_rearranges
           (fun g => Binary64.count_overlap (Binary64.atom_counts tree)
                                            (Binary64.atom_counts g))).
  - intros g. apply binary64_count_overlap_total.
  - intros l. apply merge_sort_Permutation.
Qed.

Lemma binary64_case_energy_thirds : thirds Binary64.case_energy.
Proof.
  intros tree b. destruct (binary64_count_overlap_total tree b) as [c Hc].
  unfold Binary64.case_energy. rewrite Hc. simpl.
  destruct (PrimFloat.ltb 0.75 c); [exists 2%Z | exists 1%Z];
    (split; [lia | done]).
Qed.

Lemma binary64_can_prove_is_with tree givens energy :
  Binary64.can_prove tree givens energy
  = can_prove_with Binary64.sort_givens Binary64.case_energy tree givens energy.
Proof.
  unfold Binary64.can_prove, can_prove_with.
  generalize (Z.to_nat energy) as n. intros n. revert tree givens energy.
  induction n as [|n IH]; intros; [done|]. simpl.
  change (Binary64.can_prove_body ?r ?t ?g ?e) with
    (can_prove_body_with Binary64.sort_givens Binary64.case_energy r t g e).
  apply can_prove_body_with_ext; [apply binary64_case_energy_thirds|].
  intros; apply IH.
Qed.

(** * More properties of the search *)

Lemma can_prove_perm tree givens givens' energy :
  givens ≡ₚ givens' →
  can_prove tree givens energy = can_prove tree givens' energy.
Proof.
  intros Hperm. rewrite !can_prove_is_with.
  by apply can_prove_with_perm;
    [apply sort_givens_rearranges | apply case_energy_thirds |].
Qed.









Lemma excluded_middle_not_derivable (x f : string) :
  x ≠ f → ¬ ([] ⊢ Or (Atom x) (Imp (Atom x) (Atom f))).
Proof.
  intros Hne Hd.
  set (val := fun (c : string) (w : bool) => c = x ∧ w = true).
  assert (persistent val) as Hval.
  { intros c w w' Hle [-> Hw]. split; [done | by apply Hle]. }
  pose proof (derives_forces val _ _ Hval Hd false) as H.
  destruct H as [[_ H]|H].
  - intros B HB. by apply elem_of_nil in HB.
  - discriminate.
  - destruct (H true) as [Hfx _]; [by intros _ | done | by destruct Hne].
Qed.





(** Breaking the conjunctions open changes nothing about what is derivable:
    a goal follows from the hypotheses exactly when it follows from the
    list step 0 makes of them. *)
Theorem break_open_equiderivable (givens : list Tree) (goal : Tree) :
  break_open givens ⊢ goal ↔ givens ⊢ goal.
Proof.
  split; intros H.
  - apply derives_cut with (break_open givens); [exact H|].
    apply break_open_derivable.
  - apply derives_cut with givens; [exact H|]. intros B HB.
    destruct (decide (tag B = "&")) as [Ht|Ht].
    + apply tag_and in Ht as (x0 & y0 & ->).
      assert (∀ k, k ∈ kids (And x0 y0) → k ∈ break_open givens) as Hk.
      { intros k Hkk. unfold break_open. apply elem_of_app. right.
        apply list_elem_of_In, in_flat_map. exists (And x0 y0).
        split; [|by apply list_elem_of_In].
        apply list_elem_of_In, list_elem_of_filter. by split. }
      apply derives_and_intro; apply derives_hyp, Hk; simpl;
        [left | right; left].
    + apply derives_hyp. unfold break_open. apply elem_of_app. left.
      apply list_elem_of_filter. by split.
Qed.

(** * More properties of the heuristics *)

Lemma accumulate_dom w aa cc : dom (accumulate w aa cc) = dom aa ∪ dom cc.
Proof.
  unfold accumulate.
  apply (map_fold_weak_ind (fun r m => dom r = dom m ∪ dom cc)).
  - by rewrite dom_empty_L, union_empty_l_L.
  - intros k v m r _ IH. by rewrite !dom_insert_L, IH, (assoc_L (∪)).
Qed.

Lemma atom_counts_dom tree : dom (atom_counts tree) = atom_tags tree.
Proof.
  induction tree as [c|a0 IHa b IHb|a0 IHa b IHb|a0 IHa b IHb];
    [simpl; by rewrite dom_singleton_L | ..];
    rewrite (atom_counts_node _ a0 b) by done;
    rewrite !accumulate_dom, dom_empty_L, IHa, IHb, union_empty_r_L; simpl;
    apply union_comm_L.
Qed.


Lemma Qmult_comm_L (x y : Q) : (x * y)%Q = (y * x)%Q.
Proof.
  destruct x as [xn xd], y as [yn yd]. unfold Qmult. simpl.
  by rewrite Z.mul_comm, Pos.mul_comm.
Qed.


Lemma overlap_sum_sign (a b : string → Q) (l : list string) :
  (∀ k, 0 <= a k * b k)%Q →
  (0 <= foldr (fun k acc => acc + a k * b k) 0 l)%Q ∧
  ((0 < foldr (fun k acc => acc + a k * b k) 0 l)%Q ↔
   ∃ k, k ∈ l ∧ (0 < a k * b k)%Q).
Proof.
  intros Hnn. induction l as [|k l [IH0 IH]]; simpl.
  - split; [apply Qle_refl|]. split.
    + intros H. by apply Qlt_irrefl in H.
    + intros (k & Hk & _). by apply elem_of_nil in Hk.
  - pose proof (Hnn k) as Hk.
    set (s := foldr (fun k acc => (acc + a k * b k)%Q) 0%Q l) in *.
    set (p := (a k * b k)%Q) in *. split; [lra|]. split.
    + intros Hpos. destruct (Qlt_le_dec 0 p) as [Hp|Hp].
      * exists k. split; [left | exact Hp].
      * assert (0 < s)%Q as Hs by lra.
        apply IH in Hs as (k' & Hk' & Hp'). exists k'. split; [by right | exact Hp'].
    + intros (k' & Hk' & Hp'). apply elem_of_cons in Hk' as [->|Hk'].
      * fold p in Hp'. lra.
      * assert (0 < s)%Q by (apply IH; by exists k'). lra.
Qed.

Lemma profile_product_sign (aa bb : gmap string Q) (k : string) :
  positive_profile aa → positive_profile bb →
  (0 <= default 0 (aa !! k) * default 0 (bb !! k))%Q ∧
  ((0 < default 0 (aa !! k) * default 0 (bb !! k))%Q ↔
   k ∈ dom aa ∧ k ∈ dom bb).
Proof.
  intros Ha Hb. rewrite !elem_of_dom.
  destruct (aa !! k) as [u|] eqn:Hu; destruct (bb !! k) as [v|] eqn:Hv; simpl.
  - pose proof (Qmult_lt_0_compat u v (Ha k u Hu) (Hb k v Hv)) as Hpos.
    split; [by apply Qlt_le_weak|]. split; [by intros _; split; eexists | done].
  - split; [lra|]. split; [intros H; exfalso; lra | by intros [_ [? [=]]]].
  - split; [lra|]. split; [intros H; exfalso; lra | by intros [[? [=]] _]].
  - split; [lra|]. split; [intros H; exfalso; lra | by intros [[? [=]] _]].
Qed.

Lemma count_overlap_sign (tree b : Tree) :
  ∃ c, count_overlap (atom_counts tree) (atom_counts b) = Ret c ∧
       (0 <= c)%Q ∧
       ((0 < c)%Q ↔ ∃ k, k ∈ atom_tags tree ∧ k ∈ atom_tags b).
Proof.
  destruct (count_overlap_atom_counts tree b) as [c Hc]. exists c.
  split; [exact Hc|]. unfold count_overlap in Hc. case_decide as Hsz; [done|].
  injection Hc as <-. rewrite <- !atom_counts_dom.
  set (aa := atom_counts tree) in *. set (bb := atom_counts b) in *.
  pose proof (overlap_sum_sign (fun k => default 0%Q (aa !! k))
                (fun k => default 0%Q (bb !! k)) (elements (dom aa ∪ dom bb))) as Hsum.
  destruct Hsum as [Hnn Hpos].
  { intros k. apply profile_product_sign; apply atom_counts_pos. }
  unfold set_fold. simpl.
  set (s := foldr _ _ _) in *.
  set (n := inject_Z (Z.of_nat (size (dom aa ∪ dom bb)))).
  assert (0 < n)%Q as Hn.
  { unfold n. change 0%Q with (inject_Z 0). rewrite <- Zlt_Qlt. lia. }
  assert (s / n * n == s)%Q as Hdiv.
  { field. intros Hz. rewrite Hz in Hn. by apply Qlt_irrefl in Hn. }
  assert ((0 < s)%Q ↔ ∃ k, k ∈ dom aa ∧ k ∈ dom bb) as Hshare.
  { rewrite Hpos. split.
    - intros (k & _ & Hk). exists k.
      by apply profile_product_sign in Hk; [|apply atom_counts_pos..].
    - intros (k & Ha & Hb). exists k. split.
      + apply elem_of_elements, elem_of_union. by left.
      + apply profile_product_sign; [apply atom_counts_pos..|]. by split. }
  split.
  - apply Qle_shift_div_l; [exact Hn|]. by rewrite Qmult_0_l.
  - rewrite <- Hshare. split.
    + intros Hc. rewrite <- Hdiv. by apply Qmult_lt_0_compat.
    + intros Hs. apply Qlt_shift_div_l; [exact Hn|]. by rewrite Qmult_0_l.
Qed.


Lemma StronglySorted_lookup_lt {A : Type} (R : A → A → Prop) (l : list A)
    (i j : nat) (x y : A) :
  StronglySorted R l → l !! i = Some x → l !! j = Some y → (i < j)%nat →
  R x y.
Proof.
  intros Hs. revert i j. induction Hs as [|a l Hs IH Hall]; intros i j Hi Hj Hlt.
  - by rewrite lookup_nil in Hi.
  - destruct j as [|j]; [lia|]. simpl in Hj. destruct i as [|i].
    + injection Hi as <-. rewrite Forall_forall in Hall.
      by apply Hall, list_elem_of_lookup_2 with j.
    + simpl in Hi. apply (IH i j); [done | done | lia].
Qed.



(** * The parser *)

(** ** Strings and cursors *)

Lemma append_cons c s t : String c s +:+ t = String c (s +:+ t).
Proof. reflexivity. Qed.

Lemma append_length s t :
  String.length (s +:+ t) = (String.length s + String.length t)%nat.
Proof.
  induction s as [|c s IH]; [done|]. rewrite append_cons. simpl. by rewrite IH.
Qed.

Lemma append_assoc s t u : (s +:+ t) +:+ u = s +:+ (t +:+ u).
Proof.
  induction s as [|c s IH]; [done|]. rewrite !append_cons. by rewrite IH.
Qed.

Lemma suffix_at_start toks : suffix_at toks 0 toks.
Proof. by exists "". Qed.

Lemma suffix_at_length toks idx s :
  suffix_at toks idx s → String.length toks = (idx + String.length s)%nat.
Proof. intros (pre & -> & <-). apply append_length. Qed.

Lemma suffix_at_get toks idx c s :
  suffix_at toks idx (String c s) → String.get idx toks = Some c.
Proof.
  intros (pre & -> & <-).
  pose proof (append_correct2 pre (String c s) 0) as H. simpl in H.
  by rewrite <- H.
Qed.

Lemma suffix_at_app toks idx s rest :
  suffix_at toks idx (s +:+ rest) →
  suffix_at toks (idx + String.length s) rest.
Proof.
  intros (pre & -> & <-). exists (pre +:+ s).
  by rewrite append_assoc, append_length.
Qed.

Lemma suffix_at_inj toks idx s s' :
  suffix_at toks idx s → suffix_at toks idx s' → s = s'.
Proof.
  intros (pre & -> & <-) (pre' & Heq & Hlen). revert pre' Heq Hlen.
  induction pre as [|c pre IH]; intros [|c' pre'] Heq Hlen; try done.
  rewrite !append_cons in Heq. injection Heq as -> Heq.
  apply (IH pre'); [done | by injection Hlen].
Qed.

Lemma peek_suffix toks idx c s :
  suffix_at toks idx (String c s) → LogicParser.peek toks idx = Ret c.
Proof.
  intros H. unfold LogicParser.peek, LogicParser.at_end.
  rewrite (suffix_at_length _ _ _ H), (suffix_at_get _ _ _ _ H). simpl.
  rewrite bool_decide_eq_true_2 by lia. done.
Qed.

Lemma peek_end toks idx :
  suffix_at toks idx "" → LogicParser.peek toks idx = Raise AssertionError.
Proof.
  intros H. unfold LogicParser.peek, LogicParser.at_end.
  rewrite (suffix_at_length _ _ _ H). simpl.
  rewrite bool_decide_eq_false_2 by lia. done.
Qed.

Lemma peek_inv toks idx u c :
  suffix_at toks idx u → LogicParser.peek toks idx = Ret c →
  ∃ s, u = String c s.
Proof.
  intros H Hp. destruct u as [|c' s].
  - by rewrite (peek_end _ _ H) in Hp.
  - rewrite (peek_suffix _ _ _ _ H) in Hp. injection Hp as ->. by exists s.
Qed.

Lemma next_is_suffix toks idx u c :
  suffix_at toks idx u → LogicParser.next_is toks idx c = starts u c.
Proof.
  intros H. unfold LogicParser.next_is, LogicParser.at_end, starts.
  rewrite (suffix_at_length _ _ _ H). destruct u as [|c' s]; simpl.
  - rewrite bool_decide_eq_false_2 by lia. done.
  - rewrite bool_decide_eq_true_2 by lia.
    by rewrite (suffix_at_get _ _ _ _ H).
Qed.

Lemma match_suffix toks cc idx s :
  suffix_at toks idx (cc +:+ s) →
  LogicParser.match_ toks cc idx = Ret (idx + String.length cc)%nat.
Proof.
  revert idx. induction cc as [|c cc IH]; intros idx H; simpl.
  - f_equal. lia.
  - rewrite append_cons in H. rewrite (peek_suffix _ _ _ _ H). simpl.
    rewrite decide_True by done.
    apply (suffix_at_app _ _ (String c "")) in H. simpl in H.
    rewrite (IH (S idx)) by (by replace (S idx) with (idx + 1)%nat by lia).
    f_equal. lia.
Qed.

Lemma match_inv toks cc idx idx' u :
  suffix_at toks idx u → LogicParser.match_ toks cc idx = Ret idx' →
  ∃ s, u = cc +:+ s ∧ idx' = (idx + String.length cc)%nat.
Proof.
  revert idx u. induction cc as [|c cc IH]; intros idx u H Hm; simpl in Hm.
  - injection Hm as <-. exists u. split; [done | simpl; lia].
  - inv_bind Hm. destruct (peek_inv _ _ _ _ H Hx) as [s ->].
    case_decide as Hc; [subst x | done].
    apply (suffix_at_app _ _ (String c "")) in H. simpl in H.
    replace (idx + 1)%nat with (S idx) in H by lia.
    destruct (IH _ _ H Hm) as (s' & -> & ->). exists s'.
    split; [done | simpl; lia].
Qed.

(** ** The parser reads the grammar *)

Lemma stops_weaken l rest :
  stops l rest = true →
  match l with
  | Lexpr => stops Ldisj rest = true ∧ starts rest "-" = false
  | Ldisj => stops Lconj rest = true ∧ starts rest "+" = false
  | Lconj => starts rest "&" = false
  | Lfact => True
  end.
Proof.
  destruct l; simpl; [| | |done];
    rewrite ?andb_true_iff, ?negb_true_iff; tauto.
Qed.

Tactic Notation "bind_inv" hyp(H) "as" ident(x) ident(Hx) :=
  apply bind_Ret in H; destruct H as (x & Hx & H).

Lemma parse_sound fuel :
  ∀ l toks idx u t idx',
    suffix_at toks idx u → parse l fuel toks idx = Ret (t, idx') →
    ∃ s rest, u = s +:+ rest ∧ grammar l s t ∧
              idx' = (idx + String.length s)%nat ∧ stops l rest = true.
Proof.
  induction fuel as [|fuel IH]; intros l toks idx u t idx' Hu Hp;
    [by destruct l|].
  assert (∀ lo hi op (mk : Tree → Tree → Tree) cc,
    (let body :=
       head ← parse lo fuel toks idx;
       if LogicParser.next_is toks head.2 op then
         i ← LogicParser.match_ toks (String op cc) head.2;
         tail ← parse hi fuel toks i;
         Ret (mk head.1 tail.1, tail.2)
       else Ret head in
     body = Ret (t, idx')) →
    (∃ s1 r1, u = s1 +:+ r1 ∧ grammar lo s1 t ∧
             idx' = (idx + String.length s1)%nat ∧ stops lo r1 = true ∧
             starts r1 op = false)
    ∨ ∃ s1 s2 a b rest, u = (s1 +:+ String op cc +:+ s2) +:+ rest ∧
             grammar lo s1 a ∧ grammar hi s2 b ∧ t = mk a b ∧
             idx' = (idx + String.length (s1 +:+ String op cc +:+ s2))%nat ∧
             stops hi rest = true) as Hlevel.
  { intros lo hi op mk cc Hb. cbv zeta in Hb.
    bind_inv Hb as hd Hhd. destruct hd as [a i1].
    destruct (IH _ _ _ _ _ _ Hu Hhd) as (s1 & r1 & -> & Hg1 & -> & Hs1).
    pose proof (suffix_at_app _ _ _ _ Hu) as Hu1. cbn [fst snd] in Hb.
    rewrite (next_is_suffix _ _ _ _ Hu1) in Hb.
    destruct (starts r1 op) eqn:Hop.
    - bind_inv Hb as i2 Hi2.
      destruct (match_inv _ _ _ _ _ Hu1 Hi2) as (r2 & -> & ->).
      pose proof (suffix_at_app _ _ _ _ Hu1) as Hu2.
      bind_inv Hb as tl Htl. destruct tl as [b i3]. injection Hb as <- <-.
      destruct (IH _ _ _ _ _ _ Hu2 Htl) as (s2 & rest & -> & Hg2 & -> & Hs2).
      right. exists s1, s2, a, b, rest. rewrite !append_assoc.
      repeat split; try done. rewrite !append_length. simpl. lia.
    - injection Hb as <- <-. left. by exists s1, r1. }
  destruct l.
  - destruct (Hlevel Ldisj Lexpr "-"%char Imp ">" Hp)
      as [(s1 & r1 & -> & Hg & -> & Hs & Hop)
         |(s1 & s2 & a & b & rest & -> & Hg1 & Hg2 & -> & -> & Hs)].
    + exists s1, r1. repeat split; [by apply grammar_expr_disj|].
      unfold stops in Hs |- *. by rewrite Hs, Hop.
    + eexists _, rest. repeat split; [by apply grammar_expr | done].
  - destruct (Hlevel Lconj Ldisj "+"%char Or "" Hp)
      as [(s1 & r1 & -> & Hg & -> & Hs & Hop)
         |(s1 & s2 & a & b & rest & -> & Hg1 & Hg2 & -> & -> & Hs)].
    + exists s1, r1. repeat split; [by apply grammar_disj_conj|].
      unfold stops in Hs |- *. by rewrite Hs, Hop.
    + eexists _, rest. repeat split; [by apply grammar_disj | done].
  - destruct (Hlevel Lfact Lconj "&"%char And "" Hp)
      as [(s1 & r1 & -> & Hg & -> & Hs & Hop)
         |(s1 & s2 & a & b & rest & -> & Hg1 & Hg2 & -> & -> & Hs)].
    + exists s1, r1. repeat split; [by apply grammar_conj_fact|].
      unfold stops. by rewrite Hop.
    + eexists _, rest. repeat split; [by apply grammar_conj | done].
  - simpl in Hp. bind_inv Hp as c Hc.
    destruct (peek_inv _ _ _ _ Hu Hc) as [u' ->].
    destruct (LogicParser.isalpha c) eqn:Halpha.
    + unfold LogicParser.atom in Hp. rewrite Hc in Hp. simpl in Hp.
      rewrite Halpha in Hp. simpl in Hp.
      change (LogicParser.peek toks idx ≫= _)
        with (LogicParser.match_ toks (String c "") idx) in Hp.
      bind_inv Hp as i1 Hi1. injection Hp as <- <-.
      destruct (match_inv _ _ _ _ _ Hu Hi1) as (s' & Heq & ->).
      exists (String c ""), u'. repeat split. by apply grammar_atom.
    + case_decide as Hparen; [subst c | done].
      change (LogicParser.peek toks idx ≫= _)
        with (LogicParser.match_ toks "(" idx) in Hp.
      bind_inv Hp as i1 Hi1.
      destruct (match_inv _ _ _ _ _ Hu Hi1) as (u1 & Heq & ->).
      rewrite append_cons in Heq. injection Heq as Heq.
      change ("" +:+ u1) with u1 in Heq. subst u'.
      pose proof (suffix_at_app _ _ "(" _ Hu) as Hu1.
      bind_inv Hp as r Hr. destruct r as [t1 i2].
      destruct (IH Lexpr _ _ _ _ _ Hu1 Hr) as (s & r1 & Heq & Hg & -> & _).
      subst u1.
      pose proof (suffix_at_app _ _ _ _ Hu1) as Hu2. cbn [fst snd] in Hp.
      change (LogicParser.peek toks ?i ≫= _)
        with (LogicParser.match_ toks ")" i) in Hp.
      bind_inv Hp as i3 Hi3.
      destruct (match_inv _ _ _ _ _ Hu2 Hi3) as (rest & -> & ->).
      injection Hp as <- <-. exists ("(" +:+ s +:+ ")"), rest.
      repeat split; [|by apply grammar_paren|].
      * by rewrite !append_cons, !append_assoc.
      * rewrite !append_length. simpl. lia.
Qed.

Ltac length_arith H :=
  repeat rewrite append_length in H; repeat rewrite append_length;
  simpl String.length in H; simpl String.length;
  repeat rewrite append_length in H; simpl rank in *; lia.

Lemma parse_complete :
  ∀ l s t, grammar l s t →
  ∀ fuel toks idx rest,
    suffix_at toks idx (s +:+ rest) → stops l rest = true →
    (4 * (String.length s + String.length rest) + (4 - rank l) ≤ fuel)%nat →
    parse l fuel toks idx = Ret (t, (idx + String.length s)%nat).
Proof.
  assert (∀ lo hi op (mk : Tree → Tree → Tree) cc fuel toks idx s1 s2 a b rest,
    suffix_at toks idx ((s1 +:+ String op cc +:+ s2) +:+ rest) →
    parse lo fuel toks idx = Ret (a, (idx + String.length s1)%nat) →
    parse hi fuel toks (idx + String.length s1 + String.length (String op cc))
      = Ret (b, (idx + String.length s1 + String.length (String op cc)
                 + String.length s2)%nat) →
    (head ← parse lo fuel toks idx;
     if LogicParser.next_is toks head.2 op then
       i ← LogicParser.match_ toks (String op cc) head.2;
       tail ← parse hi fuel toks i;
       Ret (mk head.1 tail.1, tail.2)
     else Ret head)
    = Ret (mk a b, (idx + String.length (s1 +:+ String op cc +:+ s2))%nat))
    as Hnode.
  { intros lo hi op mk cc fuel toks idx s1 s2 a b rest Hu Ha Hb.
    rewrite !append_assoc in Hu. pose proof (suffix_at_app _ _ _ _ Hu) as Hu1.
    rewrite Ha. cbn [mbind result_bind fst snd].
    rewrite (next_is_suffix _ _ _ _ Hu1). unfold starts. rewrite append_cons.
    simpl String.get. rewrite bool_decide_eq_true_2 by done.
    rewrite (match_suffix _ _ _ _ Hu1). cbn [mbind result_bind].
    rewrite Hb. cbn [mbind result_bind fst snd]. do 2 f_equal.
    rewrite !append_length. lia. }
  assert (∀ lo op fuel toks idx s a rest (cont : Tree * nat → result (Tree * nat)),
    suffix_at toks idx (s +:+ rest) → starts rest op = false →
    parse lo fuel toks idx = Ret (a, (idx + String.length s)%nat) →
    (head ← parse lo fuel toks idx;
     if LogicParser.next_is toks head.2 op then cont head else Ret head)
    = Ret (a, (idx + String.length s)%nat)) as Hleaf.
  { intros lo op fuel toks idx s a rest cont Hu Hop Ha.
    pose proof (suffix_at_app _ _ _ _ Hu) as Hu1.
    rewrite Ha. cbn [mbind result_bind fst snd].
    by rewrite (next_is_suffix _ _ _ _ Hu1), Hop. }
  intros l0 s0 t0 Hg.
  induction Hg as [c Hc|s t _ IH|s t _ IH|s1 s2 a b _ IH1 _ IH2
                  |s t _ IH|s1 s2 a b _ IH1 _ IH2
                  |s t _ IH|s1 s2 a b _ IH1 _ IH2];
    intros [|fuel] toks idx rest Hu Hs Hfuel; simpl rank in Hfuel; try lia.
  - (* a letter *)
    rewrite append_cons in Hu. simpl.
    rewrite (peek_suffix _ _ _ _ Hu). simpl. rewrite Hc.
    unfold LogicParser.atom. rewrite (peek_suffix _ _ _ _ Hu). simpl.
    rewrite Hc. simpl. rewrite (peek_suffix _ _ _ _ Hu). simpl.
    rewrite decide_True by done. simpl. do 2 f_equal. lia.
  - (* parentheses *)
    rewrite !append_assoc in Hu.
    pose proof (suffix_at_app _ _ _ _ Hu) as Hu1.
    pose proof (suffix_at_app _ _ _ _ Hu1) as Hu2.
    assert (LogicParser.peek toks idx = Ret "("%char) as Hpeek
      by (rewrite append_cons in Hu; exact (peek_suffix _ _ _ _ Hu)).
    simpl. rewrite Hpeek. simpl.
    replace (S idx) with (idx + String.length "(")%nat by (simpl; lia).
    change (LogicParser.expr fuel toks) with (parse Lexpr fuel toks).
    rewrite (IH fuel toks _ (")" +:+ rest) Hu1); [|done|].
    + cbn [mbind result_bind fst snd].
      change (LogicParser.peek toks ?i ≫= _)
        with (LogicParser.match_ toks ")" i).
      rewrite (match_suffix _ _ _ _ Hu2). cbn [mbind result_bind].
      do 2 f_equal. rewrite !append_length. simpl. lia.
    + length_arith Hfuel.
  - (* conj: one fact *)
    apply stops_weaken in Hs.
    apply (Hleaf Lfact "&"%char fuel toks idx s t rest); [done..|].
    apply (IH fuel toks idx rest Hu); [done | length_arith Hfuel].
  - (* conj: fact & conj *)
    apply (Hnode Lfact Lconj "&"%char And "" fuel toks idx s1 s2 a b rest);
      [done | |].
    + rewrite !append_assoc in Hu.
      apply (IH1 fuel toks idx _ Hu); [done|].
      length_arith Hfuel.
    + rewrite !append_assoc in Hu.
      apply suffix_at_app, suffix_at_app in Hu.
      apply (IH2 fuel toks _ _ Hu); [done|].
      length_arith Hfuel.
  - (* disj: one conj *)
    apply stops_weaken in Hs as [Hs Hop].
    apply (Hleaf Lconj "+"%char fuel toks idx s t rest); [done..|].
    apply (IH fuel toks idx rest Hu); [done | length_arith Hfuel].
  - (* disj: conj + disj *)
    apply (Hnode Lconj Ldisj "+"%char Or "" fuel toks idx s1 s2 a b rest);
      [done | |].
    + rewrite !append_assoc in Hu.
      apply (IH1 fuel toks idx _ Hu); [done|].
      length_arith Hfuel.
    + rewrite !append_assoc in Hu.
      apply suffix_at_app, suffix_at_app in Hu.
      apply (IH2 fuel toks _ _ Hu); [done|].
      length_arith Hfuel.
  - (* expr: one disj *)
    apply stops_weaken in Hs as [Hs Hop].
    apply (Hleaf Ldisj "-"%char fuel toks idx s t rest); [done..|].
    apply (IH fuel toks idx rest Hu); [done | length_arith Hfuel].
  - (* expr: disj -> expr *)
    apply (Hnode Ldisj Lexpr "-"%char Imp ">" fuel toks idx s1 s2 a b rest);
      [done | |].
    + rewrite !append_assoc in Hu.
      apply (IH1 fuel toks idx _ Hu); [done|].
      length_arith Hfuel.
    + rewrite !append_assoc in Hu.
      apply suffix_at_app, suffix_at_app in Hu.
      apply (IH2 fuel toks _ _ Hu); [done|].
      length_arith Hfuel.
Qed.

Lemma grammar_lift l l' s t :
  grammar l s t → (rank l' ≤ rank l)%nat → grammar l' s t.
Proof.
  intros Hg Hle.
  assert (grammar Lfact s t → grammar Lconj s t) as H32
    by apply grammar_conj_fact.
  assert (grammar Lconj s t → grammar Ldisj s t) as H21
    by apply grammar_disj_conj.
  assert (grammar Ldisj s t → grammar Lexpr s t) as H10
    by apply grammar_expr_disj.
  destruct l, l'; simpl in Hle; try lia; auto.
Qed.

Lemma grammar_letters l s t : grammar l s t → letters t = true.
Proof.
  induction 1; simpl; try done; by apply andb_true_iff.
Qed.

Lemma grammar_show l t : letters t = true → grammar l (show l t) t.
Proof.
  assert (∀ k l s t, grammar k s t →
            grammar l (paren (bool_decide (rank k < rank l)%nat) s) t) as Hparen.
  { intros k l' s t' Hg. case_bool_decide as Hlt; simpl.
    - apply grammar_lift with Lfact; [|destruct l'; simpl; lia].
      apply grammar_paren. apply grammar_lift with k; [done | simpl; lia].
    - apply grammar_lift with k; [done | lia]. }
  revert l. induction t as [c|a IHa b IHb|a IHa b IHb|a IHa b IHb];
    intros l Hl; simpl in Hl.
  - destruct c as [|c [|]]; try done. simpl.
    apply grammar_lift with Lfact; [by apply grammar_atom|].
    destruct l; simpl; lia.
  - apply andb_true_iff in Hl as [Ha Hb].
    apply (Hparen Lconj), grammar_conj; auto.
  - apply andb_true_iff in Hl as [Ha Hb].
    apply (Hparen Ldisj), grammar_disj; auto.
  - apply andb_true_iff in Hl as [Ha Hb].
    apply (Hparen Lexpr), grammar_expr; auto.
Qed.

(** ** The parser stays inside the input and inside its depth *)

Lemma get_in_range (s : string) (n : nat) :
  (n < String.length s)%nat → ∃ c, String.get n s = Some c.
Proof.
  revert n. induction s as [|c s IH]; intros n Hn; simpl in Hn; [lia|].
  destruct n as [|n]; simpl; [by exists c|]. apply IH. lia.
Qed.

Lemma peek_outcome toks idx :
  ((idx < String.length toks)%nat ∧ ∃ c, LogicParser.peek toks idx = Ret c)
  ∨ LogicParser.peek toks idx = Raise AssertionError.
Proof.
  unfold LogicParser.peek, LogicParser.at_end. case_bool_decide as Hlt; simpl.
  - left. split; [done|]. destruct (get_in_range _ _ Hlt) as [c ->].
    by exists c.
  - by right.
Qed.

Lemma match_outcome toks c cc idx :
  ((idx + String.length (String c cc) ≤ String.length toks)%nat ∧
   LogicParser.match_ toks (String c cc) idx
   = Ret (idx + String.length (String c cc))%nat)
  ∨ LogicParser.match_ toks (String c cc) idx = Raise AssertionError.
Proof.
  revert c idx. induction cc as [|c' cc IH]; intros c idx.
  - simpl. destruct (peek_outcome toks idx) as [[Hlt [t ->]]| ->]; [|by right].
    simpl. case_decide; [|by right].
    left. split; [lia | f_equal; lia].
  - change (LogicParser.match_ toks (String c (String c' cc)) idx)
      with (t ← LogicParser.peek toks idx;
            if decide (t = c)
            then LogicParser.match_ toks (String c' cc) (S idx)
            else Raise AssertionError).
    destruct (peek_outcome toks idx) as [[Hlt [t ->]]| ->]; [|by right].
    cbn [mbind result_bind]. case_decide; [|by right].
    destruct (IH c' (S idx)) as [[Hle ->]| ->]; [|by right].
    left. simpl in Hle |- *. split; [lia | f_equal; lia].
Qed.

Lemma parse_outcome fuel :
  ∀ l toks idx,
    (4 * (String.length toks - idx) + (4 - rank l) ≤ fuel)%nat →
    parsed_within toks idx (parse l fuel toks idx).
Proof.
  induction fuel as [|fuel IH]; intros l toks idx Hfuel;
    [destruct l; simpl in Hfuel; lia|].
  assert (∀ lo hi op (mk : Tree → Tree → Tree) cc,
    (4 * (String.length toks - idx) + (4 - rank lo) ≤ fuel)%nat →
    (rank hi ≤ 3)%nat →
    parsed_within toks idx
      (head ← parse lo fuel toks idx;
       if LogicParser.next_is toks head.2 op then
         i ← LogicParser.match_ toks (String op cc) head.2;
         tail ← parse hi fuel toks i;
         Ret (mk head.1 tail.1, tail.2)
       else Ret head)) as Hlevel.
  { intros lo hi op mk cc Hlo Hhi.
    pose proof (IH lo toks idx Hlo) as Hhead.
    destruct (parse lo fuel toks idx) as [[a i1]|e]; [|exact Hhead].
    simpl in Hhead. cbn [mbind result_bind fst snd].
    destruct (LogicParser.next_is toks i1 op); [|exact Hhead].
    destruct (match_outcome toks op cc i1) as [[Hle ->]| ->]; [|by left].
    cbn [mbind result_bind]. simpl String.length in *.
    assert (4 * (String.length toks - (i1 + S (String.length cc)))
            + (4 - rank hi) ≤ fuel)%nat as Hhi' by lia.
    pose proof (IH hi toks _ Hhi') as Htail.
    destruct (parse hi fuel toks _) as [[b i2]|e]; [|exact Htail].
    simpl in Htail |- *. lia. }
  destruct l; simpl rank in Hfuel.
  - apply (Hlevel Ldisj Lexpr "-"%char Imp ">"); simpl; lia.
  - apply (Hlevel Lconj Ldisj "+"%char Or ""); simpl; lia.
  - apply (Hlevel Lfact Lconj "&"%char And ""); simpl; lia.
  - simpl. destruct (peek_outcome toks idx) as [[Hlt [c Hc]]| ->]; [|by left].
    rewrite Hc. simpl. destruct (LogicParser.isalpha c) eqn:Halpha.
    + unfold LogicParser.atom. rewrite Hc. simpl. rewrite Halpha. simpl.
      rewrite Hc. simpl. rewrite decide_True by done. simpl. lia.
    + case_decide as Hparen; [subst c | by right].
      cbn [mbind result_bind].
      assert (4 * (String.length toks - S idx) + (4 - rank Lexpr) ≤ fuel)%nat
        as Hin by (simpl; lia).
      pose proof (IH Lexpr toks _ Hin) as Hexpr. simpl parse in Hexpr.
      destruct (LogicParser.expr fuel toks (S idx)) as [[t i1]|e];
        [|exact Hexpr].
      simpl in Hexpr. cbn [mbind result_bind fst snd].
      change (LogicParser.peek toks i1 ≫= _)
        with (LogicParser.match_ toks ")" i1).
      destruct (match_outcome toks ")"%char "" i1) as [[Hle ->]| ->];
        [|by left].
      simpl in Hle |- *. lia.
Qed.


(** Writing a formula in the parser's notation and reading it back gives
    the formula again, also when other text follows that does not begin
    with an operator; the operators group to the right and ["&"] binds
    tighter than ["+"], which binds tighter than ["->"]. *)
Theorem tree_from_str_show (t : Tree) (rest : string) :
  letters t = true → stops Lexpr rest = true →
  tree_from_str (show Lexpr t +:+ rest) = Ret t.
Proof.
  intros Ht Hs. unfold tree_from_str.
  change (LogicParser.expr ?f ?k ?i) with (parse Lexpr f k i).
  rewrite (parse_complete Lexpr _ t (grammar_show Lexpr t Ht) _ _ 0 rest);
    [done | | done |].
  - apply suffix_at_start.
  - rewrite append_length. simpl. lia.
Qed.

Lemma tree_from_str_show_witness :
  tree_from_str
    (show Lexpr (Imp (Or (And (Atom "a") (Atom "b")) (Atom "c"))
                     (Imp (Atom "d") (Atom "e"))) +:+ ") and more")
  = Ret (Imp (Or (And (Atom "a") (Atom "b")) (Atom "c"))
             (Imp (Atom "d") (Atom "e"))).
Proof.
  apply (tree_from_str_show
           (Imp (Or (And (Atom "a") (Atom "b")) (Atom "c"))
                (Imp (Atom "d") (Atom "e"))) ") and more");
    vm_compute; reflexivity.
Defined.

(** The parser never reads outside the input and its calls never nest
    deeper than four times the length of the input plus four: when it
    fails, it fails on an assertion, or on the [None] that [fact] returns
    for a character that is neither a letter nor an opening parenthesis. *)
Theorem tree_from_str_errors (ss : string) (e : exn) :
  tree_from_str ss = Raise e → e = AssertionError ∨ e = AttributeError.
Proof.
  unfold tree_from_str. intros H.
  assert (parsed_within ss 0 (parse Lexpr (4 * S (String.length ss)) ss 0))
    as Hout by (apply parse_outcome; simpl; lia).
  change (parse Lexpr) with LogicParser.expr in Hout.
  destruct (LogicParser.expr (4 * S (String.length ss)) ss 0) as [[t i]|e'];
    [done|].
  injection H as ->. exact Hout.
Qed.

Lemma tree_from_str_errors_witness :
  tree_from_str "a&" = Raise AssertionError ∧
  (AssertionError = AssertionError ∨ AssertionError = AttributeError).
Proof.
  assert (tree_from_str "a&" = Raise AssertionError) as H
    by (vm_compute; reflexivity).
  split; [exact H | exact (tree_from_str_errors "a&" AssertionError H)].
Defined.

(** * The search as a system of rules *)

